(** * Biclusters and their significance scoring

    A shallow embedding of [Code/surprise/biclustering/bicluster.py]:
    the classes [Bicluster] and [Biclustering].

    Modelling conventions.
    - Python integers are [Z]; lengths and areas, which are products of
      [len(...)], are [nat].
    - A raised exception is a value of [exn]; a call that may raise returns
      [result A].
    - A one-dimensional integer array is the list of its elements, a boolean
      mask the list of its booleans.  A two-dimensional array is [Nd2 m rs]:
      the list of its rows together with [shape[1]].
    - Floating point numbers (frequencies, probabilities, p-values, the overlap
      ratio) are idealised as exact rationals [Qc].
    - A Python [set] of integers is a [gset Z]. *)

From Stdlib Require Import QArith Qcanon.
From stdpp Require Import base numbers list sorting gmap sets strings pretty.

Local Open Scope Z_scope.

(** ** Exceptions *)

Inductive exn : Set :=
  | ValueError
  | AttributeError
  | IndexError
  | TypeError
  | ZeroDivisionError.

Global Instance exn_eq_dec : EqDecision exn.
Proof. solve_decision. Defined.

Inductive result (A : Type) : Type :=
  | Ok (a : A)
  | Raise (e : exn).
Global Arguments Ok {A} a.
Global Arguments Raise {A} e.

(** Sequencing: the first exception raised ends the computation.  With
    these instances [x ← r; k] reads as a Python statement sequence. *)
Global Instance result_ret : MRet result := λ A a, Ok a.
Global Instance result_bind : MBind result := λ A B k r,
  match r with
  | Ok a => k a
  | Raise e => Raise e
  end.

Definition is_ok {A : Type} (r : result A) : bool :=
  match r with Ok _ => true | Raise _ => false end.

(** ** numpy arrays *)

(** The [dtype]s the constructor tells apart: [np.bool], [np.int] (the
    platform integer) and every other one. *)
Inductive dtype : Set := dt_bool | dt_int | dt_other.

Global Instance dtype_eq_dec : EqDecision dtype.
Proof. solve_decision. Defined.

(** What a caller may pass as [rows] or [cols].  An [ndarray] of booleans,
    of [np.int] integers, of another integer dtype ([int32], [uint8]: its
    dtype is not [np.int]) or of yet another dtype; an object that is no
    [ndarray] and has no [dtype] attribute (a list, a tuple, [None]); or an
    object that is no [ndarray] but carries a [dtype]: a pandas [Series] of
    booleans, of [np.int] integers or of another dtype, or a numpy scalar,
    which has a dtype but neither a length nor an iteration.  [np.nonzero]
    reads a boolean scalar as a mask of one element. *)
Inductive pyarray : Type :=
  | BoolArray (mask : list bool)
  | IntArray (idx : list Z)
  | OtherArray
  | NotArray
  | IntArrayOther (idx : list Z)
  | BoolSeries (mask : list bool)
  | IntSeries (idx : list Z)
  | OtherSeries
  | BoolScalar (b : bool)
  | IntScalar (z : Z).

Definition isinstance_ndarray (x : pyarray) : bool :=
  match x with
  | BoolArray _ | IntArray _ | OtherArray | IntArrayOther _ => true
  | NotArray | BoolSeries _ | IntSeries _ | OtherSeries
  | BoolScalar _ | IntScalar _ => false
  end.

(** [x.dtype]: an [AttributeError] on an object without the attribute. *)
Definition get_dtype (x : pyarray) : result dtype :=
  match x with
  | BoolArray _ | BoolSeries _ | BoolScalar _ => Ok dt_bool
  | IntArray _ | IntSeries _ | IntScalar _ => Ok dt_int
  | OtherArray | IntArrayOther _ | OtherSeries => Ok dt_other
  | NotArray => Raise AttributeError
  end.

(** [np.nonzero(mask)[0]]: the positions holding [True], ascending. *)
Fixpoint nonzero_from (i : Z) (mask : list bool) : list Z :=
  match mask with
  | [] => []
  | b :: mask' =>
      if b then i :: nonzero_from (i + 1) mask' else nonzero_from (i + 1) mask'
  end.

Definition nonzero (mask : list bool) : list Z := nonzero_from 0 mask.

(** A data array: one-dimensional ([shape = (len xs,)]) or two-dimensional
    ([shape = (len rs, m)], every row of [rs] holding [m] cells). *)
Inductive ndarray : Type :=
  | Nd1 (xs : list Z)
  | Nd2 (m : nat) (rs : list (list Z)).

Definition nd_wf (a : ndarray) : Prop :=
  match a with
  | Nd1 _ => True
  | Nd2 m rs => Forall (λ r, length r = m) rs
  end.

Definition nd_len (a : ndarray) : nat :=
  match a with
  | Nd1 xs => length xs
  | Nd2 _ rs => length rs
  end.

(** [a.shape], as the list of its entries. *)
Definition nd_shape (a : ndarray) : list nat :=
  match a with
  | Nd1 xs => [length xs]
  | Nd2 m rs => [length rs; m]
  end.

(** What a caller may pass as [data]. *)
Inductive pydata : Type :=
  | DataArray (a : ndarray)
  | DataOther.

(** ** Bicluster *)

(** [rows] and [cols] hold the elements of the stored index sequences.
    [data = None] stands for the attribute [data] not being set on the
    object; [pvalue = None] for the attribute holding [None]. *)
Record Bicluster : Type := mkBicluster {
  rows : list Z;
  cols : list Z;
  rows_set : gset Z;
  cols_set : gset Z;
  data : option ndarray;
  pvalue : option Qc;
  area : nat
}.

(** The first test of [__init__], with Python's left-to-right [and]. *)
Definition both_bool (r c : pyarray) : result bool :=
  if isinstance_ndarray r then
    dr ← get_dtype r ;
    if bool_decide (dr = dt_bool) then
      dc ← get_dtype c ; Ok (bool_decide (dc = dt_bool))
    else Ok false
  else Ok false.

(** The [elif] test of [__init__]. *)
Definition both_int (r c : pyarray) : result bool :=
  if isinstance_ndarray c then
    dr ← get_dtype r ;
    if bool_decide (dr = dt_int) then
      dc ← get_dtype c ; Ok (bool_decide (dc = dt_int))
    else Ok false
  else Ok false.

(** The index array [np.nonzero(x)[0]] the first branch stores for an
    object of dtype [bool]. *)
Definition mask_indices (x : pyarray) : list Z :=
  match x with
  | BoolArray mask | BoolSeries mask => nonzero mask
  | BoolScalar b => nonzero [b]
  | _ => []
  end.

(** The elements [set(x)] and [len(x)] find in the object of dtype
    [np.int] the second branch stores as it is; a numpy scalar cannot be
    iterated. *)
Definition int_indices (x : pyarray) : result (list Z) :=
  match x with
  | IntArray idx | IntSeries idx => Ok idx
  | IntScalar _ => Raise TypeError
  | _ => Ok []
  end.

Definition select_indices (r c : pyarray) : result (list Z * list Z) :=
  b ← both_bool r c ;
  match b with
  | true => Ok (mask_indices r, mask_indices c)
  | false =>
      i ← both_int r c ;
      match i with
      | true =>
          rs ← int_indices r ;
          cs ← int_indices c ;
          Ok (rs, cs)
      | false => Raise ValueError
      end
  end.

(** The [data] branch: [Ok None] when no data was passed (nothing is
    assigned), [Ok (Some a)] when [self.data = data] runs. *)
Definition check_data (d : option pydata) (n m : nat) : result (option ndarray) :=
  match d with
  | None => Ok None
  | Some (DataArray a) =>
      if bool_decide (nd_shape a = [n; m])
         || (bool_decide (nd_len a = 0%nat) && bool_decide (n = 0%nat))
      then Ok (Some a)
      else Raise ValueError
  | Some DataOther => Raise ValueError
  end.

Definition Bicluster_init (r c : pyarray) (d : option pydata) (pv : option Qc)
    : result Bicluster :=
  rc ← select_indices r c ;
  dat ← check_data d (length rc.1) (length rc.2) ;
  Ok {| rows := rc.1; cols := rc.2;
        rows_set := list_to_set rc.1; cols_set := list_to_set rc.2;
        data := dat; pvalue := pv;
        area := (length rc.1 * length rc.2)%nat |}.

Definition set_pvalue (b : Bicluster) (pv : option Qc) : Bicluster :=
  {| rows := rows b; cols := cols b; rows_set := rows_set b;
     cols_set := cols_set b; data := data b; pvalue := pv; area := area b |}.

(** ** numpy set routines *)

(** [np.unique(ar, return_counts=True)]: the distinct values in ascending
    order, each with its number of occurrences.  [bump v t] files one more
    occurrence of [v] in the sorted table [t]. *)
Fixpoint bump (v : Z) (t : list (Z * nat)) : list (Z * nat) :=
  match t with
  | [] => [(v, 1%nat)]
  | (w, c) :: t' =>
      if bool_decide (v < w) then (v, 1%nat) :: t
      else if bool_decide (v = w) then (w, S c) :: t'
      else (w, c) :: bump v t'
  end.

Definition np_unique (ar : list Z) : list (Z * nat) := foldr bump [] ar.

(** [np.unique(ar)] *)
Definition unique_values (ar : list Z) : list Z := (np_unique ar).*1.

(** [np.intersect1d(ar1, ar2)]: the sorted, distinct values found in both. *)
Definition intersect1d (ar1 ar2 : list Z) : list Z :=
  filter (λ x, x ∈ unique_values ar2) (unique_values ar1).

(** [np.union1d(ar1, ar2)]: [unique] of the concatenation. *)
Definition union1d (ar1 ar2 : list Z) : list Z := unique_values (ar1 ++ ar2).

(** ** Geometry of biclusters *)

Definition intersection (self other : Bicluster) : result Bicluster :=
  let rows_intersec := intersect1d (rows self) (rows other) in
  let cols_intersec := intersect1d (cols self) (cols other) in
  Bicluster_init (IntArray rows_intersec) (IntArray cols_intersec) None None.

Definition union (self other : Bicluster) : result Bicluster :=
  let rows_union := union1d (rows self) (rows other) in
  let cols_union := union1d (cols self) (cols other) in
  Bicluster_init (IntArray rows_union) (IntArray cols_union) None None.

Definition Qc_of_nat (n : nat) : Qc := Qc_of_Z (Z.of_nat n).

(** [/] on two Python integers: true division, [ZeroDivisionError] on a zero
    divisor. *)
Definition truediv (x y : nat) : result Qc :=
  if bool_decide (y = 0%nat) then Raise ZeroDivisionError
  else Ok (Qc_of_nat x / Qc_of_nat y)%Qc.

Definition overlap (self other : Bicluster) : result Qc :=
  let min_area := Nat.min (area self) (area other) in
  i ← intersection self other ;
  truediv (area i) min_area.

(** Returns 1 if [self] is contained in [other], -1 otherwise. *)
Definition contained_in (self other : Bicluster) : Z :=
  let rows_intersec := rows_set self ∩ rows_set other in
  let cols_intersec := cols_set self ∩ cols_set other in
  let intersect_area := (size rows_intersec * size cols_intersec)%nat in
  if bool_decide (area self < area other)%nat
     && bool_decide (intersect_area = area self)
  then 1
  else -1.

(** [__eq__] *)
Definition Bicluster_eq (self other : Bicluster) : bool :=
  bool_decide (list_to_set (rows self) =@{gset Z} list_to_set (rows other))
  && bool_decide (list_to_set (cols self) =@{gset Z} list_to_set (cols other)).

(** ** Hashing *)

(** [str] of a one-dimensional integer array as numpy prints it on one line:
    the elements right-justified to the width of the widest one, separated
    by single blanks, between brackets.  (numpy breaks the text over several
    lines past 75 characters and abbreviates arrays of more than 1000
    elements; the arrays printed below are far from both limits.) *)
Definition pad_left (w : nat) (s : string) : string :=
  String.concat "" (replicate (w - String.length s) " ") +:+ s.

Definition elem_width (ar : list Z) : nat :=
  foldr (λ z w, Nat.max (String.length (pretty z)) w) 0%nat ar.

Definition array_str (ar : list Z) : string :=
  "[" +:+ String.concat " " (map (λ z, pad_left (elem_width ar) (pretty z)) ar) +:+ "]".

(** The tuple [__hash__] hands to [hash]. *)
Definition hash_key (self : Bicluster) : string * string * string * string :=
  ("rows", array_str (rows self), "cols", array_str (cols self)).

Section Hashing.
(** Python's [hash] on such tuples.  String hashing is keyed per process,
    so the function is a parameter of the model. *)
Variable py_hash : string * string * string * string → Z.

(** [__hash__] *)
Definition Bicluster_hash (self : Bicluster) : Z := py_hash (hash_key self).

(** [set.add]: an element is already present when a stored one has the
    same hash and compares equal. *)
Definition set_add (s : list Bicluster) (x : Bicluster) : list Bicluster :=
  if existsb (λ y, bool_decide (Bicluster_hash y = Bicluster_hash x)
                   && Bicluster_eq y x) s
  then s
  else s ++ [x].

(** [set(biclusters)], its elements listed in order of first insertion. *)
Definition py_set (l : list Bicluster) : list Bicluster :=
  fold_left set_add l [].
End Hashing.

(** ** Biclustering *)

Record Biclustering : Type := mkBiclustering {
  biclusters : list Bicluster
}.

(** Methods that assign [self.biclusters] return the updated collection.
    Python lists [set(...)] in hash-table order; the model lists the
    survivors in order of first insertion, and the statements below depend
    only on which members survive and how many. *)
Definition remove_duplicates (py_hash : string * string * string * string → Z)
    (self : Biclustering) : Biclustering :=
  {| biclusters := py_set py_hash (biclusters self) |}.

(** [bic.pvalue < pv]: ordering [None] against a number is a [TypeError]. *)
Definition pvalue_lt (b : Bicluster) (pv : Qc) : result bool :=
  match pvalue b with
  | None => Raise TypeError
  | Some q => Ok (bool_decide (q < pv)%Qc)
  end.

(** The list comprehension of [remove_bypvalue]. *)
Fixpoint filter_bypvalue (pv : Qc) (bs : list Bicluster) : result (list Bicluster) :=
  match bs with
  | [] => Ok []
  | bic :: bs' =>
      keep ← pvalue_lt bic pv ;
      rest ← filter_bypvalue pv bs' ;
      Ok (match keep with true => bic :: rest | false => rest end)
  end.

(** When the comprehension raises, the assignment is not reached and the
    collection stays as it was. *)
Definition remove_bypvalue (pv : Qc) (self : Biclustering) : result Biclustering :=
  filtered_bics ← filter_bypvalue pv (biclusters self) ;
  Ok {| biclusters := filtered_bics |}.

(** ** Binomial tail *)

Fixpoint choose (n k : nat) : nat :=
  match n, k with
  | _, O => 1
  | O, S _ => 0
  | S n', S k' => choose n' k' + choose n' k
  end.

Definition Qc_sum (l : list Qc) : Qc := foldr Qcplus 0%Qc l.

(** [stats.binom.pmf(i, n, p)] *)
Definition binom_pmf (n : nat) (p : Qc) (i : nat) : Qc :=
  (Qc_of_nat (choose n i) * p ^ i * (1 - p) ^ (n - i))%Qc.

(** [stats.binom.sf(k, n, p)], the survival function [1 - cdf]: the
    probability of strictly more than [k] successes in [n] trials, for a
    probability [p] between 0 and 1. *)
Definition binom_sf (k n : nat) (p : Qc) : Qc :=
  Qc_sum (map (binom_pmf n p) (seq (S k) (n - k))).

(** ** Significance scoring *)

(** [data_matrix[:, col_idx]]; every row of a two-dimensional array
    reaches [col_idx] ([nd_wf]). *)
Definition column (rs : list (list Z)) (col_idx : nat) : list Z :=
  map (λ r, nth col_idx r 0) rs.

(** One turn of [for v in labels]: [t] is the [(values, counts)] table of
    the column, [st] the pair [(freqs_labels, count)]. *)
Definition label_step (t : list (Z * nat)) (st : list nat * nat) (v : Z)
    : list nat * nat :=
  match list_find (λ vc, vc.1 = v) t with
  | Some (_, (_, c)) => (st.1 ++ [c], (st.2 + c)%nat)
  | None => (st.1 ++ [0%nat], st.2)
  end.

Definition count_labels (t : list (Z * nat)) (labels : list Z) : list nat * nat :=
  fold_left (label_step t) labels ([], 0%nat).

(** The row of [freq_cols] computed for one column. *)
Definition freq_row (n_rows : nat) (labels : list Z) (missing_correction : bool)
    (col : list Z) : list Qc :=
  let st := count_labels (np_unique col) labels in
  let count := if missing_correction then n_rows else st.2 in
  if bool_decide (count ≠ 0%nat)
  then map (λ c, Qc_of_nat c / Qc_of_nat count)%Qc st.1
  else map Qc_of_nat st.1.

(** [n_rows] and [freq_cols] after the first loop.  A one-dimensional
    [data_matrix] has no [shape[1]]. *)
Definition freq_table (data_matrix : ndarray) (labels : list Z)
    (missing_correction : bool) : result (nat * list (list Qc)) :=
  match data_matrix with
  | Nd1 _ => Raise IndexError
  | Nd2 n_cols rs =>
      let n_rows := length rs in
      Ok (n_rows,
          map (λ col_idx, freq_row n_rows labels missing_correction (column rs col_idx))
              (seq 0 n_cols))
  end.

(** [bic.data]: the attribute may be missing. *)
Definition get_data (bic : Bicluster) : result ndarray :=
  match data bic with
  | None => Raise AttributeError
  | Some a => Ok a
  end.

(** [a[0][j]]: [a[0]] needs a first row; on a one-dimensional array [a[0]]
    is a scalar, which cannot be indexed. *)
Definition item_0 (a : ndarray) (j : nat) : result Z :=
  match a with
  | Nd1 _ => Raise IndexError
  | Nd2 _ [] => Raise IndexError
  | Nd2 _ (r :: _) =>
      match r !! j with
      | Some x => Ok x
      | None => Raise IndexError
      end
  end.

(** [labels.index(x)] *)
Definition labels_index (labels : list Z) (x : Z) : result nat :=
  match list_find (λ v, v = x) labels with
  | Some (k, _) => Ok k
  | None => Raise ValueError
  end.

(** A numpy index along an axis of length [n]: negative indices count from
    the end. *)
Definition np_index (n : nat) (i : Z) : result nat :=
  if bool_decide (0 ≤ i < Z.of_nat n) then Ok (Z.to_nat i)
  else if bool_decide (- Z.of_nat n ≤ i < 0) then Ok (Z.to_nat (i + Z.of_nat n))
  else Raise IndexError.

(** [freq_cols[col, k]] *)
Definition freq_at (freq_cols : list (list Qc)) (col : Z) (k : nat) : result Qc :=
  c ← np_index (length freq_cols) col ;
  match freq_cols !! c ≫= (.!! k) with
  | Some f => Ok f
  | None => Raise IndexError
  end.

(** [for col in bic.cols], carrying [j] and [p]. *)
Fixpoint joint_prob (freq_cols : list (list Qc)) (labels : list Z)
    (bic : Bicluster) (cs : list Z) (j : nat) (p : Qc) : result Qc :=
  match cs with
  | [] => Ok p
  | col :: cs' =>
      a ← get_data bic ;
      x ← item_0 a j ;
      k ← labels_index labels x ;
      f ← freq_at freq_cols col k ;
      joint_prob freq_cols labels bic cs' (S j) (p * f)%Qc
  end.

(** The value assigned to [bic.pvalue]. *)
Definition score (n_rows : nat) (freq_cols : list (list Qc)) (labels : list Z)
    (bic : Bicluster) : result Qc :=
  p ← joint_prob freq_cols labels bic (cols bic) 0%nat 1%Qc ;
  Ok (binom_sf (length (rows bic)) n_rows p).

(** [for bic in self.biclusters]: the members scored before an exception
    keep their new [pvalue]; the exception, if any, is returned next to the
    collection as the loop left it.  The members are taken by value, each
    place of the list with a state of its own; [score_objects] below is the
    same loop on objects that may be listed at several places. *)
Fixpoint score_all (sc : Bicluster → result Qc) (bs : list Bicluster)
    : list Bicluster * option exn :=
  match bs with
  | [] => ([], None)
  | bic :: bs' =>
      match sc bic with
      | Ok q =>
          let r := score_all sc bs' in
          (set_pvalue bic (Some q) :: r.1, r.2)
      | Raise e => (bic :: bs', Some e)
      end
  end.

Definition run_constant_freq_column (data_matrix : ndarray) (labels : list Z)
    (missing_correction : bool) (self : Biclustering)
    : Biclustering * option exn :=
  match freq_table data_matrix labels missing_correction with
  | Raise e => (self, Some e)
  | Ok (n_rows, freq_cols) =>
      let r := score_all (score n_rows freq_cols labels) (biclusters self) in
      ({| biclusters := r.1 |}, r.2)
  end.

(** ** Members as shared objects *)

(** [self.biclusters] is a list of references: the same [Bicluster] object
    may be listed at several places, and [bic.pvalue = ...] changes it at
    all of them.  An object is named by a number; [objects] gives the state
    of every named object. *)
Definition objects : Type := nat → Bicluster.

(** The store after an assignment to an attribute of the object [r]. *)
Definition obj_set (σ : objects) (r : nat) (b : Bicluster) : objects :=
  λ r', if bool_decide (r' = r) then b else σ r'.

(** [for bic in self.biclusters] over the listed references. *)
Fixpoint score_objects (sc : Bicluster → result Qc) (refs : list nat)
    (σ : objects) : objects * option exn :=
  match refs with
  | [] => (σ, None)
  | r :: refs' =>
      match sc (σ r) with
      | Ok q => score_objects sc refs' (obj_set σ r (set_pvalue (σ r) (Some q)))
      | Raise e => (σ, Some e)
      end
  end.

(** [run_constant_freq_column] on a collection that lists the objects
    [refs]. *)
Definition run_objects (data_matrix : ndarray) (labels : list Z)
    (missing_correction : bool) (refs : list nat) (σ : objects)
    : objects * option exn :=
  match freq_table data_matrix labels missing_correction with
  | Raise e => (σ, Some e)
  | Ok (n_rows, freq_cols) =>
      score_objects (score n_rows freq_cols labels) refs σ
  end.

(** The collection read place by place. *)
Definition members (refs : list nat) (σ : objects) : Biclustering :=
  {| biclusters := map σ refs |}.

(** ** The remaining methods *)

(** [ndarray.sort()] on a one-dimensional integer array: the same elements
    in ascending order. *)
Definition np_sort (ar : list Z) : list Z := merge_sort Z.le ar.

(** [Bicluster.sort]: the two index arrays are sorted in place; the cached
    sets, the data and the area are left as they are. *)
Definition sort (self : Bicluster) : Bicluster :=
  {| rows := np_sort (rows self); cols := np_sort (cols self);
     rows_set := rows_set self; cols_set := cols_set self;
     data := data self; pvalue := pvalue self; area := area self |}.

(** What a caller may put in the list handed to [Biclustering]: a
    [Bicluster] or an object of another class. *)
Inductive pyobj : Type :=
  | ObjBicluster (b : Bicluster)
  | ObjOther.

Definition isinstance_Bicluster (o : pyobj) : bool :=
  match o with ObjBicluster _ => true | ObjOther => false end.

Definition as_Bicluster (o : pyobj) : option Bicluster :=
  match o with ObjBicluster b => Some b | ObjOther => None end.

(** [Biclustering.__init__] *)
Definition Biclustering_init (l : list pyobj) : result Biclustering :=
  if forallb isinstance_Bicluster l
  then Ok {| biclusters := omap as_Bicluster l |}
  else Raise ValueError.

(** [sorted(l, key=attrgetter('area'))]: the stable sort by area.
    [insert_by_area] puts a member in front of the first one whose area is
    not smaller, so a member stays ahead of the later members of its area. *)
Fixpoint insert_by_area (b : Bicluster) (l : list Bicluster) : list Bicluster :=
  match l with
  | [] => [b]
  | y :: l' =>
      if bool_decide (area b ≤ area y)%nat then b :: l
      else y :: insert_by_area b l'
  end.

Definition sorted_by_area (l : list Bicluster) : list Bicluster :=
  foldr insert_by_area [] l.

(** [sort_by_area]: with [reverse=True] Python reverses the list, sorts it
    and reverses the result, which keeps members of equal area in their
    original order. *)
Definition sort_by_area (descending : bool) (self : Biclustering) : Biclustering :=
  {| biclusters :=
       if descending then rev (sorted_by_area (rev (biclusters self)))
       else sorted_by_area (biclusters self) |}.

(** * Vocabulary of the statements *)

(** ** Counting *)

(** Occurrences of [v] in an array. *)
Definition occ (v : Z) (ar : list Z) : nat := length (filter (λ x, x = v) ar).

(** The count a [(values, counts)] table holds for [v] ([0] when absent),
    read the way the frequency loop reads it. *)
Definition count_in (v : Z) (t : list (Z * nat)) : nat :=
  match list_find (λ vc, vc.1 = v) t with
  | Some (_, (_, c)) => c
  | None => 0%nat
  end.

(** The values of a table are strictly ascending. *)
Definition keys_sorted (t : list (Z * nat)) : Prop := StronglySorted Z.lt t.*1.

(** Rows of a column whose value is one of the labels. *)
Definition rows_in_alphabet (labels col : list Z) : nat :=
  length (filter (λ x, x ∈ labels) col).

(** The entry of [freq_cols] for column [c] and the label at position [i]
    of the alphabet. *)
Definition freq_entry (freq_cols : list (list Qc)) (c i : nat) : option Qc :=
  row ← freq_cols !! c ; row !! i.

(** A probability. *)
Definition unit_interval (q : Qc) : Prop := (0 ≤ q ≤ 1)%Qc.

(** ** Construction *)









(** The invariant [__init__] establishes between the fields. *)
Definition Bicluster_wf (b : Bicluster) : Prop :=
  rows_set b = list_to_set (rows b)
  ∧ cols_set b = list_to_set (cols b)
  ∧ area b = (length (rows b) * length (cols b))%nat.

(** A member the scoring loop cannot read: it has some column to look at,
    and either no [data] attribute or a [data] array without a first row. *)
Definition lacks_data (bic : Bicluster) : Prop :=
  cols bic ≠ []
  ∧ (data bic = None ∨ ∃ a, data bic = Some a ∧ nd_len a = 0%nat).

(** The test of the comprehension of [remove_bypvalue] as a plain boolean,
    for members whose [pvalue] is set. *)
Definition pvalue_below (pv : Qc) (b : Bicluster) : bool :=
  match pvalue b with
  | Some q => bool_decide (q < pv)%Qc
  | None => false
  end.

(** ** The specification's formulas *)

(** The frequency as the specification words it: the label's count in the
    column over the count of rows whose value falls within the alphabet, or
    over the count of all rows under [missing_correction]. *)
Definition spec_frequency (labels : list Z) (mc : bool) (n_rows : nat)
    (col : list Z) (v : Z) : Qc :=
  (Qc_of_nat (occ v col)
   / Qc_of_nat (if mc then n_rows else rows_in_alphabet labels col))%Qc.

(** The p-value as the specification words it: the probability of at least
    [k] successes in [n] trials. *)
Definition binom_tail_at_least (k n : nat) (p : Qc) : Qc :=
  Qc_sum (map (binom_pmf n p) (seq k (S n - k))).

(** ** Sample data *)

(** The bicluster [__init__] builds from two integer arrays and no data. *)
Definition bic_of (rs cs : list Z) : Bicluster :=
  {| rows := rs; cols := cs;
     rows_set := list_to_set rs; cols_set := list_to_set cs;
     data := None; pvalue := None; area := (length rs * length cs)%nat |}.

Definition bic_left : Bicluster := bic_of [0; 1] [0].

(** The rows of [bic_left], stored in the other order. *)
Definition bic_swapped : Bicluster := bic_of [1; 0] [0].

Definition bic_right : Bicluster := bic_of [1; 2] [0; 1].

(** A row index stored twice. *)
Definition bic_rows00 : Bicluster := bic_of [0; 0] [0].

Definition bic_cell : Bicluster := bic_of [0] [0].

(** The matrix of the worked scenario: rows [[1,0]], [[1,0]], [[0,1]],
    [[1,1]]. *)
Definition scenario_matrix : ndarray := Nd2 2 [[1; 0]; [1; 0]; [0; 1]; [1; 1]].

(** The bicluster of the worked scenario: rows 0 and 1, column 0, with its
    submatrix. *)
Definition bic_scored : Bicluster :=
  {| rows := [0; 1]; cols := [0];
     rows_set := list_to_set [0; 1]; cols_set := list_to_set [0];
     data := Some (Nd2 1 [[1]; [1]]); pvalue := None; area := 2 |}.

(** One column holding 1, 1, 0. *)
Definition repeated_label_matrix : ndarray := Nd2 1 [[1]; [1]; [0]].

(** A hash function to instantiate [py_hash] with: a polynomial in the
    character codes of the four strings. *)
Definition string_code (s : string) : Z :=
  foldr (λ c h, Z.of_nat (Ascii.nat_of_ascii c) + 31 * h) 7
        (String.list_ascii_of_string s).

Definition sample_hash (k : string * string * string * string) : Z :=
  string_code k.1.1.1 + 3 * string_code k.1.1.2
  + 5 * string_code k.1.2 + 11 * string_code k.2.

(** The bicluster of the masks [[True, False, True]] and [[False, True]]. *)
Definition bic_masked : Bicluster := bic_of [0; 2] [1].

(** [set] takes [x] for the stored element [y]: same hash, and equal. *)
Definition merged (py_hash : string * string * string * string → Z)
    (y x : Bicluster) : bool :=
  bool_decide (Bicluster_hash py_hash y = Bicluster_hash py_hash x)
  && Bicluster_eq y x.

(** No member of [s] would be taken for an earlier one. *)
Definition no_merge (py_hash : string * string * string * string → Z)
    (s : list Bicluster) : Prop :=
  ∀ (i j : nat) y x, (i < j)%nat → s !! i = Some y → s !! j = Some x →
    merged py_hash y x = false.

(** A bicluster with a row it shares with nothing, and no column. *)
Definition bic_no_cols : Bicluster := bic_of [5] [].

(** Rows 0 and 1 over columns 0 and 1: it contains [bic_left]. *)
Definition bic_square : Bicluster := bic_of [0; 1] [0; 1].

(** Ordering by area. *)
Definition area_le (x y : Bicluster) : Prop := (area x ≤ area y)%nat.

(** Areas 2, 4, 2, 1, in this order. *)
Definition area_sample : list Bicluster := [bic_left; bic_right; bic_swapped; bic_cell].

(** The terms of the binomial expansion of [(p + q) ^ n] of index below
    [m]. *)
Definition expansion (p q : Qc) (n m : nat) : Qc :=
  Qc_sum (map (λ i, Qc_of_nat (choose n i) * p ^ i * q ^ (n - i))%Qc (seq 0 m)).

(** [b'] is [b] with a p-value [q] assigned and nothing else changed. *)
Definition annotated (sc : Bicluster → result Qc) (b b' : Bicluster) : Prop :=
  ∃ q, sc b = Ok q ∧ b' = set_pvalue b (Some q).


(** The collection of the worked scenario followed by two members built
    without data. *)
Definition half_scored : list Bicluster := [bic_scored; bic_left; bic_right].

(** Two objects: number 0 is the bicluster of the worked scenario, every
    other number a bicluster without data.  [shared_refs] lists object 0
    before and after object 1. *)
Definition two_objects : objects :=
  λ r, match r with O => bic_scored | S _ => bic_left end.

Definition shared_refs : list nat := [0; 1; 0]%nat.

Definition two_objects_scored : objects :=
  obj_set two_objects 0%nat
    (set_pvalue (two_objects 0%nat) (Some (binom_sf 2 4 (Q2Qc (3 # 4))))).

(** A numpy column index read from the front: a negative index in range
    counts from the end. *)
Definition wrap_index (n : nat) (col : Z) : Z :=
  if bool_decide (- Z.of_nat n ≤ col < 0) then col + Z.of_nat n else col.

(** A one-column matrix holding only label 1, its frequency table over the
    alphabet [[0, 1]], and a bicluster whose data shows label 0. *)
Definition ones_matrix : ndarray := Nd2 1 [[1]; [1]].

Definition ones_table : list (list Qc) :=
  map (λ col_idx, freq_row 2 [0; 1] false (column [[1]; [1]] col_idx)) (seq 0 1).

Definition bic_absent_label : Bicluster :=
  {| rows := [0]; cols := [0];
     rows_set := list_to_set [0]; cols_set := list_to_set [0];
     data := Some (Nd2 1 [[0]]); pvalue := None; area := 1 |}.

(** * Properties *)

(** Equality of two rationals given in closed form. *)
Ltac Qc_closed := apply Qc_is_canon; vm_compute; reflexivity.

(** ** [np.unique] *)

Lemma count_in_nil v : count_in v [] = 0%nat.
Proof. reflexivity. Qed.

Lemma count_in_cons v w c t :
  count_in v ((w, c) :: t) = if decide (w = v) then c else count_in v t.
Proof.
  unfold count_in. cbn [list_find]. simpl. destruct (decide (w = v)); [done |].
  destruct (list_find _ t) as [[i [w' c']] |]; done.
Qed.

Lemma count_in_absent v t : v ∉ t.*1 → count_in v t = 0%nat.
Proof.
  induction t as [| [w c] t IH]; [done |].
  rewrite fmap_cons, not_elem_of_cons. intros [Hne Hnin].
  rewrite count_in_cons. destruct (decide (w = v)); [by subst | auto].
Qed.

Lemma elem_of_bump x v t : x ∈ (bump v t).*1 ↔ x = v ∨ x ∈ t.*1.
Proof.
  induction t as [| [w c] t IH]; simpl.
  - rewrite list_elem_of_singleton, elem_of_nil. tauto.
  - repeat case_bool_decide; simpl; rewrite ?elem_of_cons, ?IH;
      [tauto | subst; tauto | tauto].
Qed.

Lemma bump_sorted v t : keys_sorted t → keys_sorted (bump v t).
Proof.
  unfold keys_sorted. induction t as [| [w c] t IH]; simpl; intros Hs.
  - repeat constructor.
  - apply StronglySorted_inv in Hs as [Hs Hall].
    repeat case_bool_decide; simpl.
    + constructor; [by constructor |].
      constructor; [done |].
      eapply Forall_impl; [exact Hall | simpl; lia].
    + by constructor.
    + constructor; [auto |].
      apply Forall_forall. intros x Hx. apply elem_of_bump in Hx as [-> | Hx].
      * lia.
      * rewrite Forall_forall in Hall. auto.
Qed.

Lemma count_in_bump v w t :
  keys_sorted t →
  count_in v (bump w t) = if decide (w = v) then S (count_in v t) else count_in v t.
Proof.
  unfold keys_sorted. induction t as [| [u c] t IH]; simpl; intros Hs.
  - rewrite count_in_cons, count_in_nil. done.
  - apply StronglySorted_inv in Hs as [Hs Hall].
    repeat case_bool_decide; rewrite ?count_in_cons.
    + destruct (decide (w = v)) as [-> |]; [| done].
      destruct (decide (u = v)); [lia |].
      rewrite count_in_absent; [done |].
      intros Hin. rewrite Forall_forall in Hall. apply Hall in Hin. lia.
    + subst u. destruct (decide (w = v)); done.
    + rewrite IH by done.
      destruct (decide (u = v)), (decide (w = v)); congruence.
Qed.

Lemma np_unique_sorted ar : keys_sorted (np_unique ar).
Proof.
  induction ar as [| x ar IH]; simpl.
  - constructor.
  - by apply bump_sorted.
Qed.

Lemma occ_cons v x ar :
  occ v (x :: ar) = if decide (x = v) then S (occ v ar) else occ v ar.
Proof. unfold occ. rewrite filter_cons. by destruct (decide (x = v)). Qed.

(** The table holds, for every value, its number of occurrences. *)
Lemma count_in_np_unique v ar : count_in v (np_unique ar) = occ v ar.
Proof.
  induction ar as [| x ar IH]; [done |]. simpl.
  rewrite count_in_bump by apply np_unique_sorted.
  rewrite occ_cons, IH. done.
Qed.

Lemma elem_of_unique_values x ar : x ∈ unique_values ar ↔ x ∈ ar.
Proof.
  unfold unique_values, np_unique. induction ar as [| y ar IH]; simpl.
  - done.
  - rewrite elem_of_bump, elem_of_cons, IH. done.
Qed.

Lemma StronglySorted_lt_NoDup (l : list Z) : StronglySorted Z.lt l → NoDup l.
Proof.
  induction 1 as [| x l Hs IH Hall]; constructor; [| done].
  intros Hin. rewrite Forall_forall in Hall. apply Hall in Hin. lia.
Qed.

Lemma unique_values_NoDup ar : NoDup (unique_values ar).
Proof. apply StronglySorted_lt_NoDup, np_unique_sorted. Qed.

Lemma unique_values_length_le ar : (length (unique_values ar) ≤ length ar)%nat.
Proof.
  apply submseteq_length, NoDup_submseteq; [apply unique_values_NoDup |].
  intros x. by rewrite elem_of_unique_values.
Qed.

Lemma unique_values_length_NoDup ar :
  NoDup ar → length (unique_values ar) = length ar.
Proof.
  intros Hnd. apply Permutation_length, NoDup_Permutation;
    [apply unique_values_NoDup | done |].
  intros x. apply elem_of_unique_values.
Qed.

Lemma elem_of_intersect1d x ar1 ar2 : x ∈ intersect1d ar1 ar2 ↔ x ∈ ar1 ∧ x ∈ ar2.
Proof.
  unfold intersect1d. rewrite list_elem_of_filter, !elem_of_unique_values. tauto.
Qed.

Lemma intersect1d_NoDup ar1 ar2 : NoDup (intersect1d ar1 ar2).
Proof. apply NoDup_filter, unique_values_NoDup. Qed.

Lemma intersect1d_length_l ar1 ar2 :
  (length (intersect1d ar1 ar2) ≤ length ar1)%nat.
Proof.
  apply submseteq_length, NoDup_submseteq; [apply intersect1d_NoDup |].
  intros x. rewrite elem_of_intersect1d. tauto.
Qed.

Lemma intersect1d_length_r ar1 ar2 :
  (length (intersect1d ar1 ar2) ≤ length ar2)%nat.
Proof.
  apply submseteq_length, NoDup_submseteq; [apply intersect1d_NoDup |].
  intros x. rewrite elem_of_intersect1d. tauto.
Qed.

Lemma intersect1d_self ar :
  NoDup ar → length (intersect1d ar ar) = length ar.
Proof.
  intros Hnd. apply Permutation_length, NoDup_Permutation;
    [apply intersect1d_NoDup | done |].
  intros x. rewrite elem_of_intersect1d. tauto.
Qed.

Lemma elem_of_union1d x ar1 ar2 : x ∈ union1d ar1 ar2 ↔ x ∈ ar1 ∨ x ∈ ar2.
Proof. unfold union1d. by rewrite elem_of_unique_values, elem_of_app. Qed.

Lemma union1d_length_l ar1 ar2 :
  NoDup ar1 → (length ar1 ≤ length (union1d ar1 ar2))%nat.
Proof.
  intros Hnd. apply submseteq_length, NoDup_submseteq; [done |].
  intros x. rewrite elem_of_union1d. tauto.
Qed.

Lemma union1d_length_r ar1 ar2 :
  NoDup ar2 → (length ar2 ≤ length (union1d ar1 ar2))%nat.
Proof.
  intros Hnd. apply submseteq_length, NoDup_submseteq; [done |].
  intros x. rewrite elem_of_union1d. tauto.
Qed.

(** ** Construction *)








Lemma Bicluster_init_int rs cs pv :
  Bicluster_init (IntArray rs) (IntArray cs) None pv
  = Ok {| rows := rs; cols := cs;
          rows_set := list_to_set rs; cols_set := list_to_set cs;
          data := None; pvalue := pv;
          area := (length rs * length cs)%nat |}.
Proof. reflexivity. Qed.

Lemma Bicluster_init_wf r c d pv b :
  Bicluster_init r c d pv = Ok b → Bicluster_wf b.
Proof.
  unfold Bicluster_init. destruct (select_indices r c) as [[rs cs] |]; [| done].
  simpl. destruct (check_data d _ _); [| done]. simpl.
  intros [= <-]. by repeat split.
Qed.









(** A boolean mask next to an integer array is refused by the [else]
    branch; a list next to an array fails on [rows.dtype]; two lists reach
    the [else] branch. *)
Example init_mixed_pair :
  Bicluster_init (BoolArray [true; false]) (IntArray [0]) None None
  = Raise ValueError.
Proof. reflexivity. Qed.

Example init_list_and_array :
  Bicluster_init NotArray (IntArray [0]) None None = Raise AttributeError.
Proof. reflexivity. Qed.

Example init_array_and_list :
  Bicluster_init (BoolArray [true]) NotArray None None = Raise AttributeError.
Proof. reflexivity. Qed.

Example init_two_lists :
  Bicluster_init NotArray NotArray None None = Raise ValueError.
Proof. reflexivity. Qed.

(** The second branch asks [isinstance] of [cols] only: an integer [Series]
    as [rows] is stored as it is, and an integer scalar as [rows] fails in
    [set(self.rows)].  The other way round both are refused. *)
Example init_series_and_array :
  Bicluster_init (IntSeries [0; 1]) (IntArray [0]) None None
  = Ok (bic_of [0; 1] [0]).
Proof. reflexivity. Qed.

Example init_scalar_and_array :
  Bicluster_init (IntScalar 0) (IntArray [0]) None None = Raise TypeError.
Proof. reflexivity. Qed.

Example init_array_and_series :
  Bicluster_init (IntArray [0]) (IntSeries [0; 1]) None None
  = Raise ValueError.
Proof. reflexivity. Qed.

Example init_mask_and_scalar :
  Bicluster_init (BoolArray [false; true]) (BoolScalar true) None None
  = Ok (bic_of [1] [0]).
Proof. reflexivity. Qed.

(** What the one-sided tests of [isinstance] let through, in full: an
    object is built exactly when [rows] is a boolean array and [cols] has
    dtype [bool], or [cols] is an array of dtype [np.int] and [rows] is an
    array or a [Series] of that dtype, and the [data] fits. *)
Lemma select_indices_is_ok r c :
  is_ok (select_indices r c) = true
  ↔ (isinstance_ndarray r = true ∧ get_dtype r = Ok dt_bool
     ∧ get_dtype c = Ok dt_bool)
    ∨ (isinstance_ndarray c = true ∧ get_dtype c = Ok dt_int
       ∧ get_dtype r = Ok dt_int ∧ is_ok (int_indices r) = true).
Proof.
  split.
  - destruct r, c; simpl; intros H; try discriminate;
      first [ by left | by right ].
  - intros [(Hr & Hdr & Hdc) | (Hc & Hdc & Hdr & Hi)];
      destruct r, c; simpl in *; try discriminate; reflexivity.
Qed.

(** A mask selects the positions holding [True]. *)
Example init_masks :
  Bicluster_init (BoolArray [true; false; true]) (BoolArray [false; true]) None None
  = Ok (bic_of [0; 2] [1]).
Proof. reflexivity. Qed.

(** Data of the wrong shape is refused after the indices were chosen. *)
Example init_data_misfit :
  Bicluster_init (IntArray [0; 1]) (IntArray [0])
    (Some (DataArray (Nd2 2 [[1; 1]]))) None
  = Raise ValueError.
Proof. reflexivity. Qed.

(** ** Equality *)

Lemma Bicluster_eq_true a b :
  Bicluster_eq a b = true
  ↔ list_to_set (rows a) =@{gset Z} list_to_set (rows b)
    ∧ list_to_set (cols a) =@{gset Z} list_to_set (cols b).
Proof.
  unfold Bicluster_eq. rewrite andb_true_iff, !bool_decide_eq_true. done.
Qed.

(** Biclusters holding the same row indices and the same column indices, in
    whatever order and multiplicity, compare equal. *)
Lemma Bicluster_eq_same_indices a b :
  (∀ x, x ∈ rows a ↔ x ∈ rows b) →
  (∀ x, x ∈ cols a ↔ x ∈ cols b) →
  Bicluster_eq a b = true.
Proof.
  intros Hr Hc. apply Bicluster_eq_true. split; apply set_eq; intros x;
    rewrite !elem_of_list_to_set; auto.
Qed.

(** ** Containment *)

(** C5.  [contained_in] answers 1 exactly when [self] has the strictly
    smaller area and the product of the sizes of the row and column set
    intersections is the area of [self]; it answers -1 in every other case,
    and so for a bicluster against itself. *)
Theorem C5_contained_in (a b : Bicluster) :
  let intersect_area :=
    (size (rows_set a ∩ rows_set b) * size (cols_set a ∩ cols_set b))%nat in
  (contained_in a b = 1 ↔ (area a < area b)%nat ∧ intersect_area = area a)
  ∧ (contained_in a b = -1 ↔ ¬ ((area a < area b)%nat ∧ intersect_area = area a))
  ∧ contained_in a a = -1.
Proof.
  intros ia. unfold contained_in. fold ia. split; [| split].
  - destruct (bool_decide_reflect (area a < area b)%nat);
      destruct (bool_decide_reflect (ia = area a)); simpl;
      split; intros H; try done; destruct H; done.
  - destruct (bool_decide_reflect (area a < area b)%nat);
      destruct (bool_decide_reflect (ia = area a)); simpl;
      split; intros H; try done; try (by intros []); exfalso; by apply H.
  - destruct (bool_decide_reflect (area a < area a)%nat); [lia | done].
Qed.

(** ** Intersection, union and overlap *)

Lemma intersection_Ok a b :
  intersection a b
  = Ok {| rows := intersect1d (rows a) (rows b);
          cols := intersect1d (cols a) (cols b);
          rows_set := list_to_set (intersect1d (rows a) (rows b));
          cols_set := list_to_set (intersect1d (cols a) (cols b));
          data := None; pvalue := None;
          area := (length (intersect1d (rows a) (rows b))
                   * length (intersect1d (cols a) (cols b)))%nat |}.
Proof. reflexivity. Qed.

Lemma union_Ok a b :
  union a b
  = Ok {| rows := union1d (rows a) (rows b);
          cols := union1d (cols a) (cols b);
          rows_set := list_to_set (union1d (rows a) (rows b));
          cols_set := list_to_set (union1d (cols a) (cols b));
          data := None; pvalue := None;
          area := (length (union1d (rows a) (rows b))
                   * length (union1d (cols a) (cols b)))%nat |}.
Proof. reflexivity. Qed.

Lemma intersection_area_le a b i :
  Bicluster_wf a → Bicluster_wf b → intersection a b = Ok i →
  (area i ≤ Nat.min (area a) (area b))%nat.
Proof.
  intros (_ & _ & Ha) (_ & _ & Hb). rewrite intersection_Ok. intros [= <-].
  simpl. rewrite Ha, Hb. apply Nat.min_glb; apply Nat.mul_le_mono;
    auto using intersect1d_length_l, intersect1d_length_r.
Qed.

Lemma Qc_of_nat_nonneg n : (0 ≤ Qc_of_nat n)%Qc.
Proof.
  unfold Qc_of_nat. rewrite <- Z2Qc_inj_0. apply (proj1 (Z2Qc_inj_le _ _)). lia.
Qed.

Lemma Qc_of_nat_pos n : (0 < n)%nat → (0 < Qc_of_nat n)%Qc.
Proof.
  intros. unfold Qc_of_nat. rewrite <- Z2Qc_inj_0.
  apply (proj1 (Z2Qc_inj_lt _ _)). lia.
Qed.

Lemma Qc_of_nat_le n m : (n ≤ m)%nat → (Qc_of_nat n ≤ Qc_of_nat m)%Qc.
Proof. intros. unfold Qc_of_nat. apply (proj1 (Z2Qc_inj_le _ _)). lia. Qed.

Lemma Qc_div_self x : (0 < x)%Qc → (x / x = 1)%Qc.
Proof.
  intros Hx. unfold Qcdiv. apply Qcmult_inv_r.
  intros ->. by apply Qclt_not_eq in Hx.
Qed.

(** A quotient of naturals with the numerator below the divisor lies
    between 0 and 1. *)
Lemma Qc_ratio_bounds n m :
  (n ≤ m)%nat → (0 < m)%nat → (0 ≤ Qc_of_nat n / Qc_of_nat m ≤ 1)%Qc.
Proof.
  intros Hle Hpos. pose proof (Qc_of_nat_pos m Hpos) as Hm.
  pose proof (Qcinv_pos _ Hm) as Hinv. unfold Qcdiv. split.
  - apply Qcmult_nonneg_nonneg; [apply Qc_of_nat_nonneg | by apply Qclt_le_weak].
  - rewrite <- (Qc_div_self (Qc_of_nat m)) by done. unfold Qcdiv.
    apply Qcmult_le_mono_nonneg_r; [by apply Qclt_le_weak |].
    by apply Qc_of_nat_le.
Qed.

Lemma overlap_Ok a b i :
  intersection a b = Ok i →
  (0 < Nat.min (area a) (area b))%nat →
  overlap a b = Ok (Qc_of_nat (area i) / Qc_of_nat (Nat.min (area a) (area b)))%Qc.
Proof.
  intros Hi Hpos. unfold overlap. rewrite Hi. simpl. unfold truediv.
  rewrite bool_decide_eq_false_2 by lia. done.
Qed.

Lemma overlap_self a :
  Bicluster_wf a → (0 < area a)%nat → NoDup (rows a) → NoDup (cols a) →
  overlap a a = Ok 1%Qc.
Proof.
  intros (_ & _ & Ha) Hpos Hr Hc.
  rewrite (overlap_Ok a a _ (intersection_Ok a a)) by lia. simpl.
  rewrite !intersect1d_self by done. rewrite <- Ha, Nat.min_id.
  f_equal. apply Qc_div_self, Qc_of_nat_pos, Hpos.
Qed.

Lemma bic_of_init rs cs :
  Bicluster_init (IntArray rs) (IntArray cs) None None = Ok (bic_of rs cs).
Proof. reflexivity. Qed.

Lemma bic_of_wf rs cs : Bicluster_wf (bic_of rs cs).
Proof. by repeat split. Qed.

Lemma sample_indices_NoDup : NoDup [0; 1] ∧ NoDup [1; 2] ∧ NoDup [0].
Proof.
  split; [| split]; apply (bool_decide_unpack _); vm_compute; exact I.
Qed.

(** C7.  For biclusters of positive area, [overlap] is the area of the
    intersection over the smaller of the two areas and lies between 0 and 1;
    the overlap of a bicluster with itself is 1.  The index arrays of the
    bicluster compared with itself hold unique indices, as the data model
    has them; the formula and the bounds do not depend on it. *)
Theorem C7_overlap (a b : Bicluster) :
  Bicluster_wf a → Bicluster_wf b → (0 < area a)%nat → (0 < area b)%nat →
  ∃ i q,
    intersection a b = Ok i
    ∧ overlap a b = Ok q
    ∧ q = (Qc_of_nat (area i) / Qc_of_nat (Nat.min (area a) (area b)))%Qc
    ∧ (0 ≤ q ≤ 1)%Qc
    ∧ (NoDup (rows a) → NoDup (cols a) → overlap a a = Ok 1%Qc).
Proof.
  intros Ha Hb Hpa Hpb.
  eexists _, _. split; [apply intersection_Ok |].
  split; [apply overlap_Ok; [apply intersection_Ok | lia] |].
  split; [reflexivity |]. split.
  - apply Qc_ratio_bounds; [| lia].
    by apply intersection_area_le.
  - intros. by apply overlap_self.
Qed.

Lemma C7_overlap_witness :
  ∃ i q,
    intersection bic_left bic_right = Ok i
    ∧ overlap bic_left bic_right = Ok q
    ∧ q = Qcdiv (Qc_of_nat (area i))
                (Qc_of_nat (Nat.min (area bic_left) (area bic_right)))
    ∧ (0 ≤ q ≤ 1)%Qc
    ∧ overlap bic_left bic_left = Ok 1%Qc.
Proof.
  destruct sample_indices_NoDup as (H01 & H12 & H0).
  destruct (C7_overlap bic_left bic_right)
    as (i & q & Hi & Hq & Hf & Hb & Hs);
    [apply bic_of_wf | apply bic_of_wf | simpl; lia | simpl; lia |].
  exists i, q. split; [exact Hi |]. split; [exact Hq |].
  split; [exact Hf |]. split; [exact Hb |].
  apply Hs; [exact H01 | exact H0].
Defined.

(** The uniqueness of the indices is needed for the overlap with itself.
    Outside the data model, the row array [[0, 0]] with the column array
    [[0]] gives a bicluster of area 2 whose overlap with itself is 1/2:
    [np.intersect1d] keeps one copy of a repeated index. *)
Lemma overlap_self_repeated_index :
  Bicluster_init (IntArray [0; 0]) (IntArray [0]) None None = Ok bic_rows00
  ∧ (0 < area bic_rows00)%nat
  ∧ overlap bic_rows00 bic_rows00 = Ok (Q2Qc (1 # 2))
  ∧ overlap bic_rows00 bic_rows00 ≠ Ok 1%Qc.
Proof.
  assert (H : overlap bic_rows00 bic_rows00 = Ok (Q2Qc (1 # 2))).
  { rewrite (overlap_Ok _ _ _ (intersection_Ok _ _)) by (simpl; lia).
    f_equal; Qc_closed. }
  split; [reflexivity |]. split; [simpl; lia |]. split; [exact H |].
  rewrite H. discriminate.
Qed.

(** C8.  The area of the intersection is at most the smaller of the two
    areas, the area of the union is at least the larger of the two, and
    intersection and union give equal biclusters whichever operand comes
    first.  The bound on the union is for index arrays of unique indices, as
    the data model has them; the other three parts do not depend on it. *)
Theorem C8_intersection_union_algebra (a b : Bicluster) :
  Bicluster_wf a → Bicluster_wf b →
  ∃ i i' u u',
    intersection a b = Ok i ∧ intersection b a = Ok i'
    ∧ union a b = Ok u ∧ union b a = Ok u'
    ∧ (area i ≤ Nat.min (area a) (area b))%nat
    ∧ Bicluster_eq i i' = true
    ∧ Bicluster_eq u u' = true
    ∧ (NoDup (rows a) → NoDup (cols a) → NoDup (rows b) → NoDup (cols b) →
       (Nat.max (area a) (area b) ≤ area u)%nat).
Proof.
  intros Ha Hb. eexists _, _, _, _.
  split; [apply intersection_Ok |]. split; [apply intersection_Ok |].
  split; [apply union_Ok |]. split; [apply union_Ok |].
  split; [by apply intersection_area_le |].
  split; [| split].
  - apply Bicluster_eq_same_indices; intros x; simpl;
      rewrite !elem_of_intersect1d; tauto.
  - apply Bicluster_eq_same_indices; intros x; simpl;
      rewrite !elem_of_union1d; tauto.
  - destruct Ha as (_ & _ & Ha), Hb as (_ & _ & Hb). intros Hra Hca Hrb Hcb.
    simpl. rewrite Ha, Hb. apply Nat.max_lub; apply Nat.mul_le_mono;
      auto using union1d_length_l, union1d_length_r.
Qed.

Lemma C8_intersection_union_algebra_witness :
  ∃ i i' u u',
    intersection bic_left bic_right = Ok i
    ∧ intersection bic_right bic_left = Ok i'
    ∧ union bic_left bic_right = Ok u
    ∧ union bic_right bic_left = Ok u'
    ∧ (area i ≤ Nat.min (area bic_left) (area bic_right))%nat
    ∧ Bicluster_eq i i' = true
    ∧ Bicluster_eq u u' = true
    ∧ (Nat.max (area bic_left) (area bic_right) ≤ area u)%nat.
Proof.
  destruct sample_indices_NoDup as (H01 & H12 & H0).
  destruct (C8_intersection_union_algebra bic_left bic_right)
    as (i & i' & u & u' & Hi & Hi' & Hu & Hu' & Hle & Hei & Heu & Hge);
    [apply bic_of_wf | apply bic_of_wf |].
  exists i, i', u, u'.
  split; [exact Hi |]. split; [exact Hi' |]. split; [exact Hu |].
  split; [exact Hu' |]. split; [exact Hle |]. split; [exact Hei |].
  split; [exact Heu |].
  apply Hge; [exact H01 | exact H0 | exact H12 | exact H01].
Defined.

(** The uniqueness of the indices is needed for the bound on the union.
    Outside the data model, the union of the bicluster built from rows
    [[0, 0]], columns [[0]] with the one built from rows [[0]], columns
    [[0]] has area 1, below the area 2 of the first operand: [np.union1d]
    keeps one copy of a repeated index. *)
Lemma union_area_repeated_index :
  Bicluster_init (IntArray [0; 0]) (IntArray [0]) None None = Ok bic_rows00
  ∧ Bicluster_init (IntArray [0]) (IntArray [0]) None None = Ok bic_cell
  ∧ union bic_rows00 bic_cell = Ok bic_cell
  ∧ ¬ (Nat.max (area bic_rows00) (area bic_cell) ≤ area bic_cell)%nat.
Proof.
  split; [reflexivity |]. split; [reflexivity |]. split; [reflexivity |].
  simpl. lia.
Qed.

(** ** Filtering by p-value *)

Lemma filter_bypvalue_all_set pv bs :
  Forall (λ b, is_Some (pvalue b)) bs →
  filter_bypvalue pv bs = Ok (List.filter (pvalue_below pv) bs).
Proof.
  induction 1 as [| b bs [q Hq] _ IH]; [done |].
  simpl. unfold pvalue_lt, pvalue_below. rewrite Hq. simpl. rewrite IH. simpl.
  by destruct (bool_decide (q < pv)%Qc).
Qed.

Lemma filter_bypvalue_unset pv bs :
  Exists (λ b, pvalue b = None) bs → filter_bypvalue pv bs = Raise TypeError.
Proof.
  induction 1 as [b bs Hb | b bs _ IH]; simpl; unfold pvalue_lt.
  - by rewrite Hb.
  - destruct (pvalue b); [| done]. simpl. by rewrite IH.
Qed.

Lemma elem_of_filter_pvalue_below pv bs b :
  b ∈ List.filter (pvalue_below pv) bs
  ↔ b ∈ bs ∧ ∃ q, pvalue b = Some q ∧ (q < pv)%Qc.
Proof.
  rewrite !list_elem_of_In, filter_In. unfold pvalue_below.
  split; intros [Hin H]; (split; [done |]).
  - destruct (pvalue b) as [q |]; [| done].
    exists q. split; [done |]. by apply bool_decide_eq_true in H.
  - destruct H as (q & -> & Hlt). by apply bool_decide_eq_true.
Qed.

(** C6.  When every member has its [pvalue] set, [remove_bypvalue] keeps, in
    order, exactly the members whose [pvalue] is strictly below the
    threshold.  When some member has no [pvalue], the call raises a
    [TypeError], whatever the other members hold. *)
Theorem C6_remove_bypvalue (pv : Qc) (self : Biclustering) :
  (Forall (λ b, is_Some (pvalue b)) (biclusters self) →
     remove_bypvalue pv self
     = Ok {| biclusters := List.filter (pvalue_below pv) (biclusters self) |}
     ∧ ∀ b, b ∈ List.filter (pvalue_below pv) (biclusters self)
            ↔ b ∈ biclusters self ∧ ∃ q, pvalue b = Some q ∧ (q < pv)%Qc)
  ∧ (Exists (λ b, pvalue b = None) (biclusters self) →
     remove_bypvalue pv self = Raise TypeError).
Proof.
  unfold remove_bypvalue. split.
  - intros Hall. rewrite (filter_bypvalue_all_set _ _ Hall). split; [done |].
    intros b. apply elem_of_filter_pvalue_below.
  - intros Hex. by rewrite (filter_bypvalue_unset _ _ Hex).
Qed.

(** A member at 1/100 passes the threshold 1/20 and one at 1/2 does not;
    a member never scored makes the call raise. *)
Example remove_bypvalue_scored :
  remove_bypvalue (Q2Qc (1 # 20))
    {| biclusters := [set_pvalue bic_left (Some (Q2Qc (1 # 100)));
                      set_pvalue bic_right (Some (Q2Qc (1 # 2)))] |}
  = Ok {| biclusters := [set_pvalue bic_left (Some (Q2Qc (1 # 100)))] |}.
Proof. reflexivity. Qed.

Example remove_bypvalue_unscored :
  remove_bypvalue (Q2Qc (1 # 20))
    {| biclusters := [set_pvalue bic_left (Some (Q2Qc (1 # 100))); bic_right] |}
  = Raise TypeError.
Proof. reflexivity. Qed.

(** ** The frequency table *)

Lemma label_step_count_in t st v :
  label_step t st v = (st.1 ++ [count_in v t], (st.2 + count_in v t)%nat).
Proof.
  unfold label_step, count_in.
  destruct (list_find _ t) as [[i [w c]] |]; [done |].
  by rewrite Nat.add_0_r.
Qed.

Lemma fold_label_step t labels acc n :
  fold_left (label_step t) labels (acc, n)
  = (acc ++ map (λ v, count_in v t) labels,
     (n + sum_list (map (λ v, count_in v t) labels))%nat).
Proof.
  revert acc n. induction labels as [| v labels IH]; intros acc n; simpl.
  - by rewrite app_nil_r, Nat.add_0_r.
  - rewrite label_step_count_in, IH. simpl.
    by rewrite <- app_assoc, Nat.add_assoc.
Qed.

(** After the inner loop, [freqs_labels] holds the occurrences of each label
    in the column and [count] their sum. *)
Lemma count_labels_np_unique col labels :
  count_labels (np_unique col) labels
  = (map (λ v, occ v col) labels, sum_list (map (λ v, occ v col) labels)).
Proof.
  unfold count_labels. rewrite fold_label_step. simpl. f_equal.
  - apply map_ext. intros v. apply count_in_np_unique.
  - f_equal. apply map_ext. intros v. apply count_in_np_unique.
Qed.

Lemma sum_list_bump_one (g : Z → nat) x labels :
  NoDup labels →
  sum_list (map (λ v, if decide (x = v) then S (g v) else g v) labels)
  = ((if decide (x ∈ labels) then 1 else 0) + sum_list (map g labels))%nat.
Proof.
  induction 1 as [| v labels Hnin Hnd IH]; simpl.
  - done.
  - rewrite IH. destruct (decide (x = v)) as [-> | Hne].
    + rewrite (decide_True (P := v ∈ v :: labels)) by (apply elem_of_cons; by left).
      rewrite (decide_False (P := v ∈ labels)) by done. lia.
    + destruct (decide (x ∈ labels)) as [Hin | Hin].
      * rewrite (decide_True (P := x ∈ v :: labels)) by (apply elem_of_cons; by right).
        lia.
      * rewrite (decide_False (P := x ∈ v :: labels)); [lia |].
        rewrite elem_of_cons. tauto.
Qed.

(** Over an alphabet without repeated labels, the per-label counts add up
    to the number of rows whose value lies in the alphabet. *)
Lemma sum_occ_rows_in_alphabet labels col :
  NoDup labels →
  sum_list (map (λ v, occ v col) labels) = rows_in_alphabet labels col.
Proof.
  intros Hnd. unfold rows_in_alphabet.
  induction col as [| x col IH]; simpl.
  - induction labels as [| v labels IHl]; [done |]. simpl.
    apply NoDup_cons in Hnd as [_ Hnd]. by rewrite IHl.
  - rewrite (map_ext _ (λ v, if decide (x = v) then S (occ v col) else occ v col))
      by (intros v; apply occ_cons).
    rewrite sum_list_bump_one, IH by done.
    rewrite filter_cons. by destruct (decide (x ∈ labels)).
Qed.

Lemma occ_le_rows_in_alphabet v labels col :
  v ∈ labels → (occ v col ≤ rows_in_alphabet labels col)%nat.
Proof.
  intros Hin. unfold occ, rows_in_alphabet.
  induction col as [| x col IH]; [done |].
  rewrite !filter_cons.
  destruct (decide (x = v)) as [-> | Hne].
  - rewrite decide_True by done. simpl. lia.
  - destruct (decide (x ∈ labels)); simpl; lia.
Qed.

Lemma freq_row_lookup (n_rows : nat) (labels : list Z) (mc : bool) col (i : nat) v :
  labels !! i = Some v →
  let st := count_labels (np_unique col) labels in
  let count := if mc then n_rows else st.2 in
  freq_row n_rows labels mc col !! i
  = Some (if bool_decide (count ≠ 0%nat)
          then (Qc_of_nat (occ v col) / Qc_of_nat count)%Qc
          else Qc_of_nat (occ v col)).
Proof.
  intros Hv st count. unfold freq_row. fold st count.
  assert (Hst : st.1 !! i = Some (occ v col)).
  { unfold st. rewrite count_labels_np_unique. simpl.
    change (map ?f ?l) with (f <$> l). rewrite list_lookup_fmap, Hv. done. }
  destruct (bool_decide (count ≠ 0%nat));
    change (map ?f ?l) with (f <$> l); rewrite list_lookup_fmap, Hst; done.
Qed.

Lemma freq_table_entry m rs (labels : list Z) (mc : bool) (c i : nat) v :
  (c < m)%nat → labels !! i = Some v →
  ∃ tbl,
    freq_table (Nd2 m rs) labels mc = Ok (length rs, tbl)
    ∧ freq_entry tbl c i = freq_row (length rs) labels mc (column rs c) !! i.
Proof.
  intros Hc Hv. eexists. split; [reflexivity |].
  unfold freq_entry. change (map ?f ?l) with (f <$> l).
  rewrite list_lookup_fmap, lookup_seq_lt by done. done.
Qed.

Lemma Qc_of_nat_0 : Qc_of_nat 0 = 0%Qc.
Proof. apply Z2Qc_inj_0. Qed.

(** C4 (amended).  The entry of the frequency table for a column and a
    label is the number of rows holding that label in the column, divided
    under [missing_correction] by the number of all rows, and divided
    without it, over an alphabet that lists no label twice, by the number of
    rows whose value lies in the alphabet.  Over any alphabet the entry is 0
    when that divisor is 0, and 0 for a label the column does not hold. *)
Theorem C4_frequency_table (m : nat) (rs : list (list Z)) (labels : list Z)
    (mc : bool) (c i : nat) (v : Z) :
  (c < m)%nat → labels !! i = Some v →
  ∃ tbl f,
    freq_table (Nd2 m rs) labels mc = Ok (length rs, tbl)
    ∧ freq_entry tbl c i = Some f
    ∧ let col := column rs c in
      let denom := if mc then length rs else rows_in_alphabet labels col in
      (mc = true → denom ≠ 0%nat →
       f = (Qc_of_nat (occ v col) / Qc_of_nat denom)%Qc)
      ∧ (mc = false → NoDup labels → denom ≠ 0%nat →
         f = (Qc_of_nat (occ v col) / Qc_of_nat denom)%Qc)
      ∧ (denom = 0%nat → f = 0%Qc)
      ∧ (occ v col = 0%nat → f = 0%Qc).
Proof.
  intros Hc Hv.
  destruct (freq_table_entry m rs labels mc c i v Hc Hv) as (tbl & Htbl & Hent).
  rewrite (freq_row_lookup _ _ _ _ _ _ Hv) in Hent.
  rewrite count_labels_np_unique in Hent. simpl in Hent.
  eexists tbl, _. split; [exact Htbl |]. split; [exact Hent |].
  cbv zeta.
  set (col := column rs c) in *.
  assert (Hzero : occ v col = 0%nat →
    (if bool_decide ((if mc then length rs
                      else sum_list (map (λ v0, occ v0 col) labels)) ≠ 0%nat)
     then (Qc_of_nat (occ v col)
           / Qc_of_nat (if mc then length rs
                        else sum_list (map (λ v0, occ v0 col) labels)))%Qc
     else Qc_of_nat (occ v col)) = 0%Qc).
  { intros Hz. rewrite Hz, Qc_of_nat_0. case_bool_decide; [| done].
    unfold Qcdiv. apply Qcmult_0_l. }
  split; [| split; [| split]].
  - intros -> Hd. by rewrite bool_decide_eq_true_2.
  - intros -> Hnd Hd. rewrite (sum_occ_rows_in_alphabet _ _ Hnd).
    by rewrite bool_decide_eq_true_2.
  - intros Hd. apply Hzero. destruct mc.
    + unfold col. apply length_zero_iff_nil in Hd. by rewrite Hd.
    + assert (Hle : (occ v col ≤ rows_in_alphabet labels col)%nat).
      { apply occ_le_rows_in_alphabet, list_elem_of_lookup. eauto. }
      lia.
  - exact Hzero.
Qed.

(** The worked scenario: over the alphabet [[0, 1]] without correction,
    column 0 has frequency 3/4 for label 1 and 1/4 for label 0.  Under
    [missing_correction] an alphabet may list a label twice: over [[1, 1]],
    label 1 has frequency 2/3 in the column [[1]], [[1]], [[0]]. *)
Lemma C4_frequency_table_scenario :
  NoDup [0; 1]
  ∧ (∃ tbl,
      freq_table scenario_matrix [0; 1] false = Ok (4%nat, tbl)
      ∧ freq_entry tbl 0 1 = Some (Q2Qc (3 # 4))
      ∧ freq_entry tbl 0 0 = Some (Q2Qc (1 # 4)))
  ∧ ∃ tbl,
      freq_table repeated_label_matrix [1; 1] true = Ok (3%nat, tbl)
      ∧ freq_entry tbl 0 0 = Some (Q2Qc (2 # 3)).
Proof.
  assert (Hnd : NoDup [0; 1]).
  { apply NoDup_cons. split; [| apply NoDup_singleton].
    rewrite list_elem_of_singleton. discriminate. }
  split; [exact Hnd |].
  assert (Hc : (0 < 2)%nat) by lia.
  assert (Hc1 : (0 < 1)%nat) by lia.
  destruct (C4_frequency_table 2 [[1; 0]; [1; 0]; [0; 1]; [1; 1]] [0; 1] false
              0%nat 1%nat 1 Hc eq_refl)
    as (tbl & f1 & Htbl & Hf1 & _ & Hd1 & _).
  destruct (C4_frequency_table 2 [[1; 0]; [1; 0]; [0; 1]; [1; 1]] [0; 1] false
              0%nat 0%nat 0 Hc eq_refl)
    as (tbl' & f0 & Htbl' & Hf0 & _ & Hd0 & _).
  destruct (C4_frequency_table 1 [[1]; [1]; [0]] [1; 1] true
              0%nat 0%nat 1 Hc1 eq_refl)
    as (tbl2 & f2 & Htbl2 & Hf2 & Hd2 & _).
  rewrite Htbl in Htbl'. injection Htbl' as <-.
  split.
  - exists tbl. split; [exact Htbl |].
    rewrite Hf1, Hf0, Hd1, Hd0 by (first [reflexivity | exact Hnd
                                         | vm_compute; discriminate]).
    split; f_equal; Qc_closed.
  - exists tbl2. split; [exact Htbl2 |].
    rewrite Hf2, Hd2 by (first [reflexivity | vm_compute; discriminate]).
    f_equal; Qc_closed.
Defined.

(** Under [missing_correction] the divisor is the number of all rows: over
    the alphabet [[0]], label 0 has frequency 1/4 in column 0 of the
    scenario matrix, and 1 without the correction. *)
Example freq_missing_correction :
  ∃ tbl tbl',
    freq_table scenario_matrix [0] true = Ok (4%nat, tbl)
    ∧ freq_entry tbl 0 0 = Some (Q2Qc (1 # 4))
    ∧ freq_table scenario_matrix [0] false = Ok (4%nat, tbl')
    ∧ freq_entry tbl' 0 0 = Some 1%Qc.
Proof.
  eexists _, _. split; [reflexivity |]. split.
  { unfold freq_entry. simpl. f_equal; Qc_closed. }
  split; [reflexivity |]. unfold freq_entry. simpl. f_equal; Qc_closed.
Qed.

(** With the alphabet [[1, 1]] and the one-column matrix [[1]], [[1]],
    [[0]], two rows hold label 1 and two rows lie in the alphabet, yet the
    table gives label 1 the frequency 1/2: [count] adds the two rows once
    for each listing of the label. *)
Lemma C4_frequency_repeated_label :
  ∃ tbl,
    freq_table repeated_label_matrix [1; 1] false = Ok (3%nat, tbl)
    ∧ freq_entry tbl 0 0 = Some (Q2Qc (1 # 2))
    ∧ spec_frequency [1; 1] false 3 (column [[1]; [1]; [0]] 0) 1 = 1%Qc
    ∧ freq_entry tbl 0 0
      ≠ Some (spec_frequency [1; 1] false 3 (column [[1]; [1]; [0]] 0) 1).
Proof.
  assert (Hs : spec_frequency [1; 1] false 3 (column [[1]; [1]; [0]] 0) 1 = 1%Qc)
    by Qc_closed.
  eexists. split; [reflexivity |].
  assert (He : freq_entry
                 (map (λ col_idx, freq_row 3 [1; 1] false
                                    (column [[1]; [1]; [0]] col_idx)) (seq 0 1))
                 0 0 = Some (Q2Qc (1 # 2))).
  { unfold freq_entry. simpl. f_equal; Qc_closed. }
  split; [exact He |]. split; [exact Hs |].
  intros Hne. pose proof (eq_trans (eq_sym He) Hne) as Habs.
  rewrite Hs in Habs. discriminate Habs.
Qed.

(** ** The joint probability is a probability *)

Lemma unit_interval_0 : unit_interval 0%Qc.
Proof. split; [apply Qcle_refl | done]. Qed.

Lemma unit_interval_1 : unit_interval 1%Qc.
Proof. split; [done | apply Qcle_refl]. Qed.

Lemma unit_interval_mult p f :
  unit_interval p → unit_interval f → unit_interval (p * f)%Qc.
Proof.
  intros [Hp0 Hp1] [Hf0 Hf1]. split.
  - by apply Qcmult_nonneg_nonneg.
  - apply Qcle_trans with (p * 1)%Qc.
    + by apply Qcmult_le_mono_nonneg_l.
    + by rewrite Qcmult_1_r.
Qed.

Lemma occ_le_length v col : (occ v col ≤ length col)%nat.
Proof. unfold occ. apply length_filter. Qed.

Lemma elem_le_sum_list (g : Z → nat) v labels :
  v ∈ labels → (g v ≤ sum_list (map g labels))%nat.
Proof.
  induction labels as [| w labels IH]; [by intros ?%elem_of_nil |].
  intros [-> | Hin]%elem_of_cons; simpl; [lia |]. specialize (IH Hin). lia.
Qed.

Lemma column_length rs c : length (column rs c) = length rs.
Proof. unfold column. apply length_map. Qed.

(** Every frequency of a row of the table lies between 0 and 1, whether or
    not the alphabet repeats a label. *)
Lemma freq_row_unit_interval labels mc col :
  Forall unit_interval (freq_row (length col) labels mc col).
Proof.
  unfold freq_row. rewrite count_labels_np_unique. simpl.
  set (count := if mc then length col else sum_list (map (λ v, occ v col) labels)).
  assert (Hle : ∀ v, v ∈ labels → (occ v col ≤ count)%nat).
  { intros v Hv. unfold count. destruct mc.
    - apply occ_le_length.
    - by apply (elem_le_sum_list (λ v, occ v col)). }
  case_bool_decide as Hc.
  - change (map ?f (map ?g ?l)) with (f <$> (g <$> l)).
    rewrite <- list_fmap_compose. apply Forall_fmap, Forall_forall.
    intros v Hv. apply Qc_ratio_bounds; [by apply Hle | lia].
  - change (map ?f (map ?g ?l)) with (f <$> (g <$> l)).
    rewrite <- list_fmap_compose. apply Forall_fmap, Forall_forall.
    intros v Hv. simpl. specialize (Hle v Hv).
    replace (occ v col) with 0%nat by lia.
    rewrite Qc_of_nat_0. apply unit_interval_0.
Qed.

Lemma freq_table_unit_interval data_matrix labels mc n_rows freq_cols :
  freq_table data_matrix labels mc = Ok (n_rows, freq_cols) →
  Forall (Forall unit_interval) freq_cols.
Proof.
  destruct data_matrix as [xs | m rs]; [done |]. simpl. intros [= <- <-].
  change (map ?f ?l) with (f <$> l). apply Forall_fmap, Forall_forall.
  intros c _. simpl. rewrite <- (column_length rs c) at 1.
  apply freq_row_unit_interval.
Qed.

Lemma freq_at_unit_interval freq_cols col k f :
  Forall (Forall unit_interval) freq_cols →
  freq_at freq_cols col k = Ok f → unit_interval f.
Proof.
  intros Hall. unfold freq_at.
  destruct (np_index _ col) as [c |]; [| done]. simpl.
  destruct (freq_cols !! c) as [row |] eqn:Hrow; [| done]. simpl.
  destruct (row !! k) as [f' |] eqn:Hf; [| done]. intros [= <-].
  eapply Forall_lookup_1 in Hrow; [| exact Hall].
  eapply Forall_lookup_1 in Hf; [| exact Hrow]. done.
Qed.

Lemma joint_prob_unit_interval freq_cols labels bic cs j p q :
  Forall (Forall unit_interval) freq_cols → unit_interval p →
  joint_prob freq_cols labels bic cs j p = Ok q → unit_interval q.
Proof.
  intros Hall. revert j p. induction cs as [| col cs IH]; intros j p Hp; simpl.
  - by intros [= <-].
  - destruct (get_data bic) as [a |]; [| done]. simpl.
    destruct (item_0 a j) as [x |]; [| done]. simpl.
    destruct (labels_index labels x) as [k |]; [| done]. simpl.
    destruct (freq_at freq_cols col k) as [f |] eqn:Hf; [| done]. simpl.
    apply IH. apply unit_interval_mult; [done |].
    by eapply freq_at_unit_interval.
Qed.

(** The success probability handed to [stats.binom.sf] always lies between
    0 and 1. *)
Lemma score_probability_unit_interval data_matrix labels mc n_rows freq_cols bic p :
  freq_table data_matrix labels mc = Ok (n_rows, freq_cols) →
  joint_prob freq_cols labels bic (cols bic) 0 1%Qc = Ok p →
  unit_interval p.
Proof.
  intros Hft Hp. eapply joint_prob_unit_interval; [| apply unit_interval_1 | exact Hp].
  by eapply freq_table_unit_interval.
Qed.

(** ** The scoring loop and the [data] attribute *)

Lemma Bicluster_init_no_data r c pv b :
  Bicluster_init r c None pv = Ok b → data b = None.
Proof.
  unfold Bicluster_init. destruct (select_indices r c) as [rc |]; [| done].
  simpl. by intros [= <-].
Qed.

Lemma item_0_empty a j : nd_len a = 0%nat → item_0 a j = Raise IndexError.
Proof. destruct a as [xs | m [| r rs]]; simpl; [done | done | lia]. Qed.

Lemma score_no_data n_rows freq_cols labels bic :
  cols bic ≠ [] → data bic = None →
  score n_rows freq_cols labels bic = Raise AttributeError.
Proof.
  intros Hc Hd. unfold score. destruct (cols bic) as [| col cs]; [done |].
  simpl. unfold get_data. by rewrite Hd.
Qed.

Lemma score_empty_data n_rows freq_cols labels bic a :
  cols bic ≠ [] → data bic = Some a → nd_len a = 0%nat →
  score n_rows freq_cols labels bic = Raise IndexError.
Proof.
  intros Hc Hd Hl. unfold score. destruct (cols bic) as [| col cs]; [done |].
  simpl. unfold get_data. rewrite Hd. simpl. by rewrite item_0_empty.
Qed.

Lemma score_lacks_data n_rows freq_cols labels bic :
  lacks_data bic →
  score n_rows freq_cols labels bic = Raise AttributeError
  ∨ score n_rows freq_cols labels bic = Raise IndexError.
Proof.
  intros [Hc [Hd | (a & Hd & Hl)]].
  - left. by apply score_no_data.
  - right. by eapply score_empty_data.
Qed.

(** The loop stops at the first member whose scoring raises. *)
Lemma score_all_first_raise sc pre bic post e :
  Forall (λ x, is_ok (sc x) = true) pre → sc bic = Raise e →
  (score_all sc (pre ++ bic :: post)).2 = Some e.
Proof.
  intros Hpre He. induction Hpre as [| x pre Hx _ IH]; simpl.
  - by rewrite He.
  - destruct (sc x); [done | discriminate].
Qed.

Lemma score_all_some_raise sc bs bic e :
  bic ∈ bs → sc bic = Raise e → is_Some (score_all sc bs).2.
Proof.
  intros Hin He. induction bs as [| x bs IH]; [by apply elem_of_nil in Hin |].
  simpl. destruct (sc x) as [q | e'] eqn:Hx; [| by eexists].
  simpl. apply elem_of_cons in Hin as [-> | Hin]; [congruence | auto].
Qed.

(** C10.  A bicluster built without [data] has no [data] attribute.  Scoring
    a member that has columns raises [AttributeError] when the attribute is
    missing and [IndexError] when the array has no first row; a run over a
    collection holding such a member never ends normally, and it ends with
    one of these two errors when the members before it are scored without
    error. *)
Theorem C10_data_precondition :
  (∀ r c pv b, Bicluster_init r c None pv = Ok b → data b = None)
  ∧ (∀ n_rows freq_cols labels bic, cols bic ≠ [] →
       (data bic = None →
          score n_rows freq_cols labels bic = Raise AttributeError)
       ∧ (∀ a, data bic = Some a → nd_len a = 0%nat →
          score n_rows freq_cols labels bic = Raise IndexError))
  ∧ (∀ data_matrix labels mc self bic,
       bic ∈ biclusters self → lacks_data bic →
       is_Some (run_constant_freq_column data_matrix labels mc self).2)
  ∧ (∀ data_matrix labels mc n_rows freq_cols pre bic post,
       freq_table data_matrix labels mc = Ok (n_rows, freq_cols) →
       Forall (λ x, is_ok (score n_rows freq_cols labels x) = true) pre →
       lacks_data bic →
       let r := run_constant_freq_column data_matrix labels mc
                  {| biclusters := pre ++ bic :: post |} in
       r.2 = Some AttributeError ∨ r.2 = Some IndexError).
Proof.
  split; [exact Bicluster_init_no_data |]. split; [| split].
  - intros n_rows freq_cols labels bic Hc. split.
    + by apply score_no_data.
    + intros a. by apply score_empty_data.
  - intros dm labels mc self bic Hin Hl. unfold run_constant_freq_column.
    destruct (freq_table dm labels mc) as [[n_rows freq_cols] | e];
      [| by eexists]. simpl.
    destruct (score_lacks_data n_rows freq_cols labels bic Hl) as [H | H];
      eapply score_all_some_raise; eauto.
  - intros dm labels mc n_rows freq_cols pre bic post Hft Hpre Hl r.
    unfold r, run_constant_freq_column. rewrite Hft. simpl.
    destruct (score_lacks_data n_rows freq_cols labels bic Hl) as [H | H].
    + left. by apply score_all_first_raise.
    + right. by apply score_all_first_raise.
Qed.

Lemma bic_scored_init :
  Bicluster_init (IntArray [0; 1]) (IntArray [0])
    (Some (DataArray (Nd2 1 [[1]; [1]]))) None = Ok bic_scored.
Proof. reflexivity. Qed.

Lemma C10_data_precondition_witness :
  let r := run_constant_freq_column scenario_matrix [0; 1] false
             {| biclusters := [bic_scored] ++ bic_left :: [bic_right] |} in
  r.2 = Some AttributeError ∨ r.2 = Some IndexError.
Proof.
  destruct C10_data_precondition as (_ & _ & _ & H).
  eapply (H scenario_matrix [0; 1] false _ _ [bic_scored] bic_left [bic_right]).
  - reflexivity.
  - repeat constructor.
  - split; [discriminate | by left].
Defined.

(** A member without columns is scored without its data being read. *)
Lemma score_no_columns n_rows freq_cols labels bic :
  cols bic = [] →
  score n_rows freq_cols labels bic
  = Ok (binom_sf (length (rows bic)) n_rows 1%Qc).
Proof. intros Hc. unfold score. by rewrite Hc. Qed.

(** ** The p-value *)

(** The survival function at [k] is the tail from [k + 1] on. *)
Lemma binom_sf_tail k n p : binom_sf k n p = binom_tail_at_least (S k) n p.
Proof. reflexivity. Qed.

(** The two tails differ by the probability of exactly [k] successes. *)
Lemma binom_tail_at_least_split k n p :
  (k ≤ n)%nat →
  binom_tail_at_least k n p = (binom_pmf n p k + binom_sf k n p)%Qc.
Proof.
  intros Hk. unfold binom_tail_at_least, binom_sf.
  replace (S n - k)%nat with (S (n - k)) by lia. reflexivity.
Qed.

(** What a successful scoring assigns: the survival function at the number
    of rows, for the product [p] of the looked-up frequencies. *)
Lemma score_Ok_sf n_rows freq_cols labels bic q :
  score n_rows freq_cols labels bic = Ok q →
  ∃ p, joint_prob freq_cols labels bic (cols bic) 0 1%Qc = Ok p
       ∧ q = binom_sf (length (rows bic)) n_rows p
       ∧ q = binom_tail_at_least (S (length (rows bic))) n_rows p.
Proof.
  unfold score. destruct (joint_prob _ _ _ _ _ _) as [p |]; [| done].
  simpl. intros [= <-]. eauto.
Qed.

Lemma run_single_member data_matrix labels mc n_rows freq_cols bic q :
  freq_table data_matrix labels mc = Ok (n_rows, freq_cols) →
  score n_rows freq_cols labels bic = Ok q →
  run_constant_freq_column data_matrix labels mc {| biclusters := [bic] |}
  = ({| biclusters := [set_pvalue bic (Some q)] |}, None).
Proof.
  intros Hft Hsc. unfold run_constant_freq_column. rewrite Hft. simpl.
  by rewrite Hsc.
Qed.

(** C3 (the code at the worked scenario).  For the bicluster of rows 0 and
    1 and column 0 of the scenario matrix, the run computes [p = 3/4] and
    assigns [pvalue = 189/256], the probability of more than 2 successes in
    4 trials; the probability of at least 2 successes is 243/256. *)
Theorem C3_pvalue_scenario :
  ∃ tbl q,
    freq_table scenario_matrix [0; 1] false = Ok (4%nat, tbl)
    ∧ joint_prob tbl [0; 1] bic_scored (cols bic_scored) 0 1%Qc = Ok (Q2Qc (3 # 4))
    ∧ run_constant_freq_column scenario_matrix [0; 1] false
        {| biclusters := [bic_scored] |}
      = ({| biclusters := [set_pvalue bic_scored (Some q)] |}, None)
    ∧ q = binom_sf 2 4 (Q2Qc (3 # 4))
    ∧ q = Q2Qc (189 # 256)
    ∧ binom_tail_at_least 2 4 (Q2Qc (3 # 4)) = Q2Qc (243 # 256)
    ∧ q ≠ binom_tail_at_least 2 4 (Q2Qc (3 # 4)).
Proof.
  assert (Hp : joint_prob
                 (map (λ col_idx, freq_row 4 [0; 1] false
                        (column [[1; 0]; [1; 0]; [0; 1]; [1; 1]] col_idx)) (seq 0 2))
                 [0; 1] bic_scored (cols bic_scored) 0 1%Qc = Ok (Q2Qc (3 # 4))).
  { simpl. f_equal; Qc_closed. }
  assert (Hq : binom_sf 2 4 (Q2Qc (3 # 4)) = Q2Qc (189 # 256)) by Qc_closed.
  assert (Ht : binom_tail_at_least 2 4 (Q2Qc (3 # 4)) = Q2Qc (243 # 256))
    by Qc_closed.
  exists (map (λ col_idx, freq_row 4 [0; 1] false
                 (column [[1; 0]; [1; 0]; [0; 1]; [1; 1]] col_idx)) (seq 0 2)).
  exists (binom_sf 2 4 (Q2Qc (3 # 4))).
  split; [reflexivity |]. split; [exact Hp |]. split.
  { apply (run_single_member _ _ _ 4%nat
             (map (λ col_idx, freq_row 4 [0; 1] false
                (column [[1; 0]; [1; 0]; [0; 1]; [1; 1]] col_idx)) (seq 0 2)));
      [reflexivity |].
    unfold score. rewrite Hp. reflexivity. }
  split; [reflexivity |]. split; [exact Hq |]. split; [exact Ht |].
  rewrite Hq, Ht. discriminate.
Qed.

(** ** Hashing and deduplication *)

Lemma bic_left_swapped_rows : rows_set bic_left = rows_set bic_swapped.
Proof.
  change (list_to_set [0; 1] =@{gset Z} list_to_set [1; 0]).
  apply set_eq. intros x. rewrite !elem_of_list_to_set, !elem_of_cons. tauto.
Qed.

Lemma bic_left_swapped_eq : Bicluster_eq bic_left bic_swapped = true.
Proof.
  apply Bicluster_eq_true. split; [exact bic_left_swapped_rows | reflexivity].
Qed.

(** C1 (the code on two equal biclusters).  The biclusters built from the
    row arrays [[0, 1]] and [[1, 0]] over column [[0]] have the same row and
    column sets and compare equal, but [__hash__] hashes the tuples
    [('rows', '[0 1]', 'cols', '[0]')] and [('rows', '[1 0]', 'cols', '[0]')]:
    their hashes agree only where [hash] collides on these two tuples. *)
Theorem C1_equal_biclusters_distinct_hash_keys :
  Bicluster_init (IntArray [0; 1]) (IntArray [0]) None None = Ok bic_left
  ∧ Bicluster_init (IntArray [1; 0]) (IntArray [0]) None None = Ok bic_swapped
  ∧ rows_set bic_left = rows_set bic_swapped
  ∧ cols_set bic_left = cols_set bic_swapped
  ∧ Bicluster_eq bic_left bic_swapped = true
  ∧ hash_key bic_left = ("rows", "[0 1]", "cols", "[0]")
  ∧ hash_key bic_swapped = ("rows", "[1 0]", "cols", "[0]")
  ∧ hash_key bic_left ≠ hash_key bic_swapped
  ∧ (∀ py_hash,
       Bicluster_hash py_hash bic_left = Bicluster_hash py_hash bic_swapped
       ↔ py_hash ("rows", "[0 1]", "cols", "[0]")
         = py_hash ("rows", "[1 0]", "cols", "[0]"))
  ∧ Bicluster_hash sample_hash bic_left ≠ Bicluster_hash sample_hash bic_swapped.
Proof.
  split; [reflexivity |]. split; [reflexivity |].
  split; [exact bic_left_swapped_rows |].
  split; [reflexivity |]. split; [exact bic_left_swapped_eq |].
  split; [reflexivity |]. split; [reflexivity |]. split; [discriminate |].
  split; [done |]. vm_compute. discriminate.
Qed.

Lemma py_set_pair py_hash a b :
  py_set py_hash [a; b]
  = if bool_decide (Bicluster_hash py_hash a = Bicluster_hash py_hash b)
       && Bicluster_eq a b
    then [a] else [a; b].
Proof.
  unfold py_set, set_add. simpl. rewrite orb_false_r.
  by destruct (bool_decide _ && Bicluster_eq a b).
Qed.

(** Equal members whose hashes agree are merged. *)
Lemma remove_duplicates_same_hash py_hash a b :
  Bicluster_hash py_hash a = Bicluster_hash py_hash b →
  Bicluster_eq a b = true →
  biclusters (remove_duplicates py_hash {| biclusters := [a; b] |}) = [a].
Proof.
  intros Hh He. simpl. rewrite py_set_pair, He.
  by rewrite bool_decide_eq_true_2.
Qed.

(** C2 (the code on two equal biclusters).  Whenever [hash] tells the two
    tuples apart, [remove_duplicates] keeps both of the equal biclusters
    built from the row arrays [[0, 1]] and [[1, 0]]. *)
Theorem C2_reordered_duplicates_survive
    (py_hash : string * string * string * string → Z) :
  py_hash (hash_key bic_left) ≠ py_hash (hash_key bic_swapped) →
  Bicluster_eq bic_left bic_swapped = true
  ∧ biclusters (remove_duplicates py_hash {| biclusters := [bic_left; bic_swapped] |})
    = [bic_left; bic_swapped].
Proof.
  intros Hne. split.
  - exact bic_left_swapped_eq.
  - simpl. rewrite py_set_pair. by rewrite bool_decide_eq_false_2.
Qed.

Lemma C2_reordered_duplicates_survive_witness :
  Bicluster_eq bic_left bic_swapped = true
  ∧ biclusters (remove_duplicates sample_hash
                  {| biclusters := [bic_left; bic_swapped] |})
    = [bic_left; bic_swapped].
Proof.
  apply (C2_reordered_duplicates_survive sample_hash).
  vm_compute. discriminate.
Defined.

(** * Further properties of the code *)

(** ** Boolean masks *)

Lemma elem_of_nonzero_from x i mask :
  x ∈ nonzero_from i mask ↔ i ≤ x ∧ mask !! Z.to_nat (x - i) = Some true.
Proof.
  revert i. induction mask as [| b mask IH]; intros i; simpl.
  - rewrite elem_of_nil. by intros; split; [| intros [_ ?]].
  - assert (Hstep : x ∈ nonzero_from (i + 1) mask
                    ↔ i < x ∧ (b :: mask) !! Z.to_nat (x - i) = Some true).
    { rewrite IH. split; intros [Hle Hl]; (split; [lia |]).
      - replace (Z.to_nat (x - i)) with (S (Z.to_nat (x - (i + 1)))) by lia. done.
      - replace (Z.to_nat (x - i)) with (S (Z.to_nat (x - (i + 1)))) in Hl by lia.
        done. }
    destruct b.
    + rewrite elem_of_cons, Hstep. split.
      * intros [-> | [Hlt Hl]]; [| split; [lia | done]].
        split; [lia |]. by replace (Z.to_nat (i - i)) with 0%nat by lia.
      * intros [Hle Hl]. destruct (decide (x = i)) as [-> | Hne]; [by left |].
        right. split; [lia | done].
    + rewrite Hstep. split; intros [Hle Hl]; (split; [lia | done]) || idtac.
      split; [| done]. destruct (decide (x = i)) as [-> | Hne]; [| lia].
      by replace (Z.to_nat (i - i)) with 0%nat in Hl by lia.
Qed.

Lemma nonzero_from_sorted i mask : StronglySorted Z.lt (nonzero_from i mask).
Proof.
  revert i. induction mask as [| b mask IH]; intros i; simpl; [constructor |].
  destruct b; [| apply IH]. constructor; [apply IH |].
  apply Forall_forall. intros x Hx. apply elem_of_nonzero_from in Hx. lia.
Qed.

(** [np.nonzero] lists exactly the positions holding [True], in strictly
    ascending order. *)
Lemma nonzero_spec mask :
  StronglySorted Z.lt (nonzero mask)
  ∧ ∀ x, x ∈ nonzero mask ↔ 0 ≤ x ∧ mask !! Z.to_nat x = Some true.
Proof.
  split; [apply nonzero_from_sorted |]. intros x. unfold nonzero.
  rewrite elem_of_nonzero_from. by replace (x - 0) with x by lia.
Qed.

(** X1.  A bicluster built from two boolean masks holds exactly the
    positions at which its masks are true, in strictly ascending order and
    so without a repeated index, and its area is the product of the sizes
    of its row set and its column set. *)
Theorem mask_bicluster_indices (mr mc : list bool) (d : option pydata)
    (pv : option Qc) (b : Bicluster) :
  Bicluster_init (BoolArray mr) (BoolArray mc) d pv = Ok b →
  StronglySorted Z.lt (rows b) ∧ StronglySorted Z.lt (cols b)
  ∧ (∀ x, x ∈ rows b ↔ 0 ≤ x ∧ mr !! Z.to_nat x = Some true)
  ∧ (∀ x, x ∈ cols b ↔ 0 ≤ x ∧ mc !! Z.to_nat x = Some true)
  ∧ NoDup (rows b) ∧ NoDup (cols b)
  ∧ area b = (size (rows_set b) * size (cols_set b))%nat.
Proof.
  unfold Bicluster_init. simpl.
  destruct (check_data d _ _) as [dat |]; [| done]. simpl. intros [= <-]. simpl.
  destruct (nonzero_spec mr) as [Hsr Her], (nonzero_spec mc) as [Hsc Hec].
  pose proof (StronglySorted_lt_NoDup _ Hsr) as Hnr.
  pose proof (StronglySorted_lt_NoDup _ Hsc) as Hnc.
  split; [done |]. split; [done |]. split; [exact Her |]. split; [exact Hec |].
  split; [done |]. split; [done |]. by rewrite !size_list_to_set.
Qed.

Lemma mask_bicluster_indices_witness :
  StronglySorted Z.lt (rows bic_masked)
  ∧ StronglySorted Z.lt (cols bic_masked)
  ∧ (∀ x, x ∈ rows bic_masked
          ↔ 0 ≤ x ∧ [true; false; true] !! Z.to_nat x = Some true)
  ∧ (∀ x, x ∈ cols bic_masked
          ↔ 0 ≤ x ∧ [false; true] !! Z.to_nat x = Some true)
  ∧ NoDup (rows bic_masked) ∧ NoDup (cols bic_masked)
  ∧ area bic_masked
    = (size (rows_set bic_masked) * size (cols_set bic_masked))%nat.
Proof.
  apply (mask_bicluster_indices [true; false; true] [false; true] None None).
  reflexivity.
Defined.

(** ** Equality is an equivalence on index sets *)

(** X2.  [__eq__] holds exactly between biclusters with the same row
    indices and the same column indices, whatever their order, their
    repetitions, the data and the p-value; it is reflexive, symmetric and
    transitive. *)
Theorem Bicluster_eq_equivalence :
  (∀ a b, Bicluster_eq a b = true
          ↔ (∀ x, x ∈ rows a ↔ x ∈ rows b) ∧ (∀ x, x ∈ cols a ↔ x ∈ cols b))
  ∧ (∀ a, Bicluster_eq a a = true)
  ∧ (∀ a b, Bicluster_eq a b = Bicluster_eq b a)
  ∧ (∀ a b c, Bicluster_eq a b = true → Bicluster_eq b c = true →
              Bicluster_eq a c = true)
  ∧ (∀ a pv, Bicluster_eq (set_pvalue a pv) a = true).
Proof.
  assert (Hiff : ∀ a b, Bicluster_eq a b = true
     ↔ (∀ x, x ∈ rows a ↔ x ∈ rows b) ∧ (∀ x, x ∈ cols a ↔ x ∈ cols b)).
  { intros a b. rewrite Bicluster_eq_true. split.
    - intros [Hr Hc]. split; intros x.
      + by rewrite <- !(elem_of_list_to_set (C := gset Z)), Hr.
      + by rewrite <- !(elem_of_list_to_set (C := gset Z)), Hc.
    - intros [Hr Hc]. split; apply set_eq; intros x;
        rewrite !elem_of_list_to_set; auto. }
  split; [exact Hiff |]. split; [| split; [| split]].
  - intros a. by apply Hiff.
  - intros a b. unfold Bicluster_eq. f_equal; apply bool_decide_ext; split; done.
  - intros a b c [Hr1 Hc1]%Hiff [Hr2 Hc2]%Hiff. apply Hiff. split; intros x.
    + by rewrite Hr1.
    + by rewrite Hc1.
  - intros a pv. by apply Hiff.
Qed.

(** ** Sorting a bicluster *)

Lemma np_sort_Sorted ar : Sorted Z.le (np_sort ar).
Proof. apply Sorted_merge_sort, _. Qed.

Lemma np_sort_Permutation ar : np_sort ar ≡ₚ ar.
Proof. apply merge_sort_Permutation. Qed.

(** Arrays with the same elements sort to the same array. *)
Lemma np_sort_unique ar1 ar2 : ar1 ≡ₚ ar2 → np_sort ar1 = np_sort ar2.
Proof.
  intros Hp. apply (Sorted_unique Z.le); [apply np_sort_Sorted .. |].
  by rewrite !np_sort_Permutation.
Qed.

Lemma np_sort_idemp ar : np_sort (np_sort ar) = np_sort ar.
Proof. apply np_sort_unique, np_sort_Permutation. Qed.

Lemma list_to_set_np_sort ar :
  list_to_set (np_sort ar) =@{gset Z} list_to_set ar.
Proof.
  apply set_eq. intros x. by rewrite !elem_of_list_to_set, np_sort_Permutation.
Qed.

(** X3.  [sort] leaves both index arrays in ascending order with the same
    elements as before; the sorted bicluster still equals the original, the
    cached sets and the area stay valid, and sorting again changes
    nothing. *)
Theorem sort_canonical_order (b : Bicluster) :
  Sorted Z.le (rows (sort b)) ∧ Sorted Z.le (cols (sort b))
  ∧ rows (sort b) ≡ₚ rows b ∧ cols (sort b) ≡ₚ cols b
  ∧ Bicluster_eq (sort b) b = true
  ∧ (Bicluster_wf b → Bicluster_wf (sort b))
  ∧ sort (sort b) = sort b.
Proof.
  split; [apply np_sort_Sorted |]. split; [apply np_sort_Sorted |].
  split; [apply np_sort_Permutation |]. split; [apply np_sort_Permutation |].
  split; [| split].
  - apply Bicluster_eq_true. simpl. by rewrite !list_to_set_np_sort.
  - intros (Hr & Hc & Ha). unfold Bicluster_wf. simpl.
    rewrite !list_to_set_np_sort, !np_sort_Permutation. done.
  - unfold sort. simpl. by rewrite !np_sort_idemp.
Qed.

Lemma same_set_Permutation (l k : list Z) :
  NoDup l → NoDup k → list_to_set l =@{gset Z} list_to_set k → l ≡ₚ k.
Proof.
  intros Hl Hk Heq. apply NoDup_Permutation; [done | done |].
  intros x. by rewrite <- !(elem_of_list_to_set (C := gset Z)), Heq.
Qed.

Lemma sort_hash_key_eq a b :
  Bicluster_eq a b = true →
  NoDup (rows a) → NoDup (cols a) → NoDup (rows b) → NoDup (cols b) →
  hash_key (sort a) = hash_key (sort b).
Proof.
  intros [Hr Hc]%Bicluster_eq_true Hra Hca Hrb Hcb. unfold hash_key. simpl.
  rewrite (np_sort_unique (rows a) (rows b)) by by apply same_set_Permutation.
  rewrite (np_sort_unique (cols a) (cols b)) by by apply same_set_Permutation.
  done.
Qed.

(** X4.  Once sorted, two equal biclusters whose index arrays repeat no
    index are hashed from the same tuple, so their hashes agree whatever
    hash function Python uses. *)
Theorem sort_makes_hash_agree (py_hash : string * string * string * string → Z)
    (a b : Bicluster) :
  Bicluster_eq a b = true →
  NoDup (rows a) → NoDup (cols a) → NoDup (rows b) → NoDup (cols b) →
  hash_key (sort a) = hash_key (sort b)
  ∧ Bicluster_hash py_hash (sort a) = Bicluster_hash py_hash (sort b)
  ∧ Bicluster_eq (sort a) (sort b) = true.
Proof.
  intros Heq Hra Hca Hrb Hcb.
  pose proof (sort_hash_key_eq a b Heq Hra Hca Hrb Hcb) as Hk.
  split; [done |]. split; [unfold Bicluster_hash; by rewrite Hk |].
  apply Bicluster_eq_true in Heq as [Hr Hc].
  apply Bicluster_eq_true. simpl. by rewrite !list_to_set_np_sort.
Qed.

Lemma NoDup_pair_01 : NoDup [0; 1] ∧ NoDup [1; 0] ∧ NoDup [0].
Proof.
  repeat split; repeat (apply NoDup_cons; split);
    try apply NoDup_nil_2; rewrite ?list_elem_of_singleton, ?elem_of_nil; lia.
Qed.

Lemma sort_makes_hash_agree_witness :
  hash_key (sort bic_left) = hash_key (sort bic_swapped)
  ∧ Bicluster_hash sample_hash (sort bic_left)
    = Bicluster_hash sample_hash (sort bic_swapped)
  ∧ Bicluster_eq (sort bic_left) (sort bic_swapped) = true.
Proof.
  destruct NoDup_pair_01 as (H01 & H10 & H0).
  apply (sort_makes_hash_agree sample_hash bic_left bic_swapped);
    [exact bic_left_swapped_eq | exact H01 | exact H0 | exact H10 | exact H0].
Defined.

(** ** Deduplication *)

Lemma merged_refl py_hash x : merged py_hash x x = true.
Proof.
  unfold merged. rewrite bool_decide_eq_true_2 by done.
  by apply Bicluster_eq_true.
Qed.

Lemma merged_sym py_hash y x : merged py_hash y x = merged py_hash x y.
Proof.
  unfold merged, Bicluster_eq. f_equal; [| f_equal];
    apply bool_decide_ext; split; done.
Qed.

Lemma set_add_cases py_hash s x :
  (set_add py_hash s x = s ∧ ∃ y, y ∈ s ∧ merged py_hash y x = true)
  ∨ (set_add py_hash s x = s ++ [x] ∧ ∀ y, y ∈ s → merged py_hash y x = false).
Proof.
  change (set_add py_hash s x)
    with (if existsb (λ y, merged py_hash y x) s then s else s ++ [x]).
  destruct (existsb (λ y, merged py_hash y x) s) eqn:E.
  - left. split; [done |]. apply existsb_exists in E as (y & Hy & Hm).
    exists y. by rewrite list_elem_of_In.
  - right. split; [done |]. intros y Hy.
    destruct (merged py_hash y x) eqn:Hm; [| done].
    assert (existsb (λ y, merged py_hash y x) s = true); [| congruence].
    apply existsb_exists. exists y. by rewrite <- list_elem_of_In.
Qed.

Lemma fold_set_add_extends py_hash l s :
  ∃ t, fold_left (set_add py_hash) l s = s ++ t ∧ sublist t l.
Proof.
  revert s. induction l as [| x l IH]; intros s; simpl.
  - exists []. by rewrite app_nil_r.
  - destruct (IH (set_add py_hash s x)) as (t & Ht & Hsub). rewrite Ht.
    destruct (set_add_cases py_hash s x) as [[-> _] | [-> _]].
    + exists t. split; [done |]. by apply sublist_cons.
    + exists (x :: t). split; [by rewrite <- app_assoc |]. by apply sublist_skip.
Qed.

Lemma fold_set_add_keeps py_hash l s y :
  y ∈ s → y ∈ fold_left (set_add py_hash) l s.
Proof.
  intros Hy. destruct (fold_set_add_extends py_hash l s) as (t & -> & _).
  apply elem_of_app. by left.
Qed.

Lemma fold_set_add_covers py_hash l s x :
  x ∈ l → ∃ y, y ∈ fold_left (set_add py_hash) l s ∧ merged py_hash y x = true.
Proof.
  revert s. induction l as [| z l IH]; intros s; [by intros ?%elem_of_nil |].
  intros [-> | Hin]%elem_of_cons; simpl; [| by apply IH].
  destruct (set_add_cases py_hash s z) as [[-> (y & Hy & Hm)] | [-> _]].
  - exists y. split; [by apply fold_set_add_keeps | done].
  - exists z. split; [| apply merged_refl].
    apply fold_set_add_keeps, elem_of_app. right. by apply list_elem_of_singleton.
Qed.

Lemma no_merge_snoc py_hash s x :
  no_merge py_hash s → (∀ y, y ∈ s → merged py_hash y x = false) →
  no_merge py_hash (s ++ [x]).
Proof.
  intros Hs Hx i j y z Hij Hi Hj.
  assert (j < length (s ++ [x]))%nat as Hlen by (by eapply lookup_lt_Some).
  rewrite length_app in Hlen. simpl in Hlen.
  rewrite lookup_app_l in Hi by lia.
  destruct (decide (j < length s)%nat) as [Hlt | Hge].
  - rewrite lookup_app_l in Hj by lia. exact (Hs i j y z Hij Hi Hj).
  - rewrite lookup_app_r in Hj by lia.
    replace (j - length s)%nat with 0%nat in Hj by lia. injection Hj as <-.
    apply Hx. by eapply list_elem_of_lookup_2.
Qed.

Lemma fold_set_add_no_merge py_hash l s :
  no_merge py_hash s → no_merge py_hash (fold_left (set_add py_hash) l s).
Proof.
  revert s. induction l as [| x l IH]; intros s Hs; simpl; [done |].
  apply IH. destruct (set_add_cases py_hash s x) as [[-> _] | [-> Hx]];
    [done | by apply no_merge_snoc].
Qed.

Lemma no_merge_nil py_hash : no_merge py_hash [].
Proof. intros i j y x _ Hi. by rewrite lookup_nil in Hi. Qed.

Lemma py_set_no_merge py_hash l : no_merge py_hash (py_set py_hash l).
Proof. apply fold_set_add_no_merge, no_merge_nil. Qed.

(** A list without mergeable members goes through [set] unchanged. *)
Lemma fold_set_add_fixed py_hash l s :
  no_merge py_hash (s ++ l) → fold_left (set_add py_hash) l s = s ++ l.
Proof.
  revert s. induction l as [| x l IH]; intros s Hs; simpl.
  - by rewrite app_nil_r.
  - destruct (set_add_cases py_hash s x) as [[_ (y & Hy & Hm)] | [-> _]].
    + exfalso. apply list_elem_of_lookup in Hy as [i Hi].
      assert (merged py_hash y x = false); [| congruence].
      apply (Hs i (length s) y x).
      * by eapply lookup_lt_Some.
      * by rewrite lookup_app_l by (by eapply lookup_lt_Some).
      * rewrite lookup_app_r by lia. by rewrite Nat.sub_diag.
    + rewrite IH; rewrite <- app_assoc; done.
Qed.

(** X5.  [remove_duplicates] only keeps members of the collection, each at
    most as often as it was there; every member it drops is equal to, and
    hashed like, one it keeps; and no two members it keeps are both equal
    and hashed alike. *)
Theorem remove_duplicates_sound (py_hash : string * string * string * string → Z)
    (self : Biclustering) :
  let out := biclusters (remove_duplicates py_hash self) in
  out ⊆+ biclusters self
  ∧ (length out ≤ length (biclusters self))%nat
  ∧ (∀ x, x ∈ biclusters self →
       ∃ y, y ∈ out ∧ Bicluster_eq y x = true
            ∧ Bicluster_hash py_hash y = Bicluster_hash py_hash x)
  ∧ (∀ (i j : nat) y x, i ≠ j → out !! i = Some y → out !! j = Some x →
       ¬ (Bicluster_eq y x = true
          ∧ Bicluster_hash py_hash y = Bicluster_hash py_hash x)).
Proof.
  simpl. unfold py_set.
  destruct (fold_set_add_extends py_hash (biclusters self) []) as (t & Ht & Hsub).
  simpl in Ht. split; [| split; [| split]].
  - rewrite Ht. by apply sublist_submseteq.
  - rewrite Ht. by apply sublist_length.
  - intros x Hx.
    destruct (fold_set_add_covers py_hash _ [] x Hx) as (y & Hy & Hm).
    exists y. split; [done |]. unfold merged in Hm.
    apply andb_true_iff in Hm as [Hh He]. by apply bool_decide_eq_true in Hh.
  - intros i j y x Hij Hi Hj [He Hh].
    assert (merged py_hash y x = true) as Hm.
    { unfold merged. by rewrite He, bool_decide_eq_true_2. }
    pose proof (py_set_no_merge py_hash (biclusters self)) as Hnm.
    unfold py_set in Hnm.
    destruct (decide (i < j)%nat).
    + rewrite (Hnm i j y x) in Hm by done. done.
    + rewrite merged_sym in Hm. rewrite (Hnm j i x y) in Hm by (done || lia). done.
Qed.

(** X6.  Running [remove_duplicates] a second time keeps every member the
    first run kept. *)
Theorem remove_duplicates_idempotent (py_hash : string * string * string * string → Z)
    (self : Biclustering) :
  biclusters (remove_duplicates py_hash (remove_duplicates py_hash self))
  ≡ₚ biclusters (remove_duplicates py_hash self).
Proof.
  simpl. unfold py_set at 1.
  rewrite fold_set_add_fixed; [done |]. apply py_set_no_merge.
Qed.

Lemma elem_of_py_set py_hash l y : y ∈ py_set py_hash l → y ∈ l.
Proof.
  unfold py_set. destruct (fold_set_add_extends py_hash l []) as (t & -> & Hsub).
  simpl. intros Hy. by eapply elem_of_sublist.
Qed.

Lemma Bicluster_eq_sort a b :
  Bicluster_eq (sort a) (sort b) = Bicluster_eq a b.
Proof. unfold Bicluster_eq. simpl. by rewrite !list_to_set_np_sort. Qed.

(** X7.  When every member has been sorted and no member repeats an index,
    [remove_duplicates] leaves no two equal members, whatever hash function
    Python uses. *)
Theorem sort_then_remove_duplicates
    (py_hash : string * string * string * string → Z) (bs : list Bicluster) :
  Forall (λ b, NoDup (rows b) ∧ NoDup (cols b)) bs →
  let out := biclusters (remove_duplicates py_hash {| biclusters := sort <$> bs |}) in
  ∀ (i j : nat) y x, i ≠ j → out !! i = Some y → out !! j = Some x →
    Bicluster_eq y x = false.
Proof.
  intros Hnd out i j y x Hij Hi Hj. unfold out in Hi, Hj. simpl in Hi, Hj.
  assert (Hsrc : ∀ z, z ∈ py_set py_hash (sort <$> bs) →
            ∃ z0, z = sort z0 ∧ NoDup (rows z0) ∧ NoDup (cols z0)).
  { intros z Hz%elem_of_py_set. apply list_elem_of_fmap in Hz as (z0 & -> & Hz0).
    exists z0. split; [done |]. rewrite Forall_forall in Hnd. by apply Hnd. }
  destruct (Hsrc y) as (y0 & -> & Hyr & Hyc); [by eapply list_elem_of_lookup_2 |].
  destruct (Hsrc x) as (x0 & -> & Hxr & Hxc); [by eapply list_elem_of_lookup_2 |].
  destruct (Bicluster_eq (sort y0) (sort x0)) eqn:He; [| done]. exfalso.
  assert (Hm : merged py_hash (sort y0) (sort x0) = true).
  { unfold merged. rewrite He, andb_true_r. apply bool_decide_eq_true.
    unfold Bicluster_hash. f_equal. apply sort_hash_key_eq; [| done ..].
    by rewrite <- Bicluster_eq_sort. }
  pose proof (py_set_no_merge py_hash (sort <$> bs)) as Hnm.
  destruct (decide (i < j)%nat).
  - rewrite (Hnm i j _ _) in Hm by done. done.
  - rewrite merged_sym in Hm. rewrite (Hnm j i _ _) in Hm by (done || lia). done.
Qed.

Lemma sort_then_remove_duplicates_witness :
  let out := biclusters (remove_duplicates sample_hash
                           {| biclusters := sort <$> [bic_left; bic_swapped] |}) in
  Forall (λ b, NoDup (rows b) ∧ NoDup (cols b)) [bic_left; bic_swapped]
  ∧ ∀ (i j : nat) y x, i ≠ j → out !! i = Some y → out !! j = Some x →
      Bicluster_eq y x = false.
Proof.
  destruct NoDup_pair_01 as (H01 & H10 & H0).
  assert (Hnd : Forall (λ b, NoDup (rows b) ∧ NoDup (cols b))
                  [bic_left; bic_swapped]).
  { constructor; [split; [exact H01 | exact H0] |].
    constructor; [split; [exact H10 | exact H0] |]. constructor. }
  split; [exact Hnd |].
  exact (sort_then_remove_duplicates sample_hash [bic_left; bic_swapped] Hnd).
Defined.

(** ** Containment and overlap *)

Lemma size_intersection_le (X Y : gset Z) : (size (X ∩ Y) ≤ size X)%nat.
Proof. apply subseteq_size, intersection_subseteq_l. Qed.

Lemma size_intersection_full (X Y : gset Z) : size (X ∩ Y) = size X ↔ X ⊆ Y.
Proof.
  split.
  - intros Hs. apply subseteq_intersection_2_L.
    apply set_subseteq_size_eq; [apply intersection_subseteq_l | lia].
  - intros Hsub. by rewrite (subseteq_intersection_1_L _ _ Hsub).
Qed.

Lemma full_product (r c R C : nat) :
  (r ≤ R)%nat → (c ≤ C)%nat → (0 < R * C)%nat → (r * c = R * C)%nat →
  r = R ∧ c = C.
Proof.
  intros Hr Hc Hpos He.
  assert (0 < R)%nat by (destruct R; simpl in *; lia).
  assert (0 < C)%nat by (destruct C; [rewrite Nat.mul_0_r in Hpos |]; lia).
  assert (r * c ≤ r * C)%nat by (by apply Nat.mul_le_mono_l).
  assert (r * c ≤ R * c)%nat by (by apply Nat.mul_le_mono_r).
  destruct (decide (r = R)) as [-> | Hne].
  - split; [done |]. apply Nat.mul_cancel_l in He; [done | lia].
  - exfalso. assert (r * C < R * C)%nat by (apply Nat.mul_lt_mono_pos_r; lia).
    lia.
Qed.

Lemma contained_in_iff_subsets (a b : Bicluster) :
  Bicluster_wf a → NoDup (rows a) → NoDup (cols a) → (0 < area a)%nat →
  (contained_in a b = 1
   ↔ rows_set a ⊆ rows_set b ∧ cols_set a ⊆ cols_set b ∧ (area a < area b)%nat).
Proof.
  intros (Hr & Hc & Ha) Hnr Hnc Hpos. unfold contained_in.
  pose proof (size_intersection_le (rows_set a) (rows_set b)) as Hlr.
  pose proof (size_intersection_le (cols_set a) (cols_set b)) as Hlc.
  assert (Hsr : size (rows_set a) = length (rows a))
    by (rewrite Hr; by apply size_list_to_set).
  assert (Hsc : size (cols_set a) = length (cols a))
    by (rewrite Hc; by apply size_list_to_set).
  rewrite <- !size_intersection_full.
  destruct (bool_decide_reflect (area a < area b)%nat) as [Hlt | Hlt]; simpl;
    [| split; [done | intros (_ & _ & ?); done]].
  destruct (bool_decide_reflect
              ((size (rows_set a ∩ rows_set b) * size (cols_set a ∩ cols_set b))%nat
               = area a)) as [He | He].
  - split; [intros _ | done]. rewrite Ha, <- Hsr, <- Hsc in He, Hpos.
    destruct (full_product _ _ _ _ Hlr Hlc Hpos He) as [H1 H2].
    by rewrite H1, H2.
  - split; [done |]. intros (Hx & Hy & _). exfalso. apply He.
    by rewrite Hx, Hy, Hsr, Hsc.
Qed.

(** X8.  For a bicluster of positive area whose index arrays repeat no
    index, [contained_in] answers 1 exactly when its rows are rows of the
    other, its columns are columns of the other, and its area is strictly
    smaller. *)
Theorem contained_in_subsets (a b : Bicluster) :
  Bicluster_wf a → NoDup (rows a) → NoDup (cols a) → (0 < area a)%nat →
  (contained_in a b = 1
   ↔ rows_set a ⊆ rows_set b ∧ cols_set a ⊆ cols_set b ∧ (area a < area b)%nat).
Proof. apply contained_in_iff_subsets. Qed.

Lemma contained_in_subsets_witness :
  contained_in bic_left bic_square = 1
  ↔ rows_set bic_left ⊆ rows_set bic_square
    ∧ cols_set bic_left ⊆ cols_set bic_square
    ∧ (area bic_left < area bic_square)%nat.
Proof.
  destruct NoDup_pair_01 as (H01 & H10 & H0).
  apply (contained_in_subsets bic_left bic_square);
    [apply bic_of_wf | exact H01 | exact H0 | simpl; lia].
Defined.

(** X9.  A bicluster without rows or without columns is reported contained
    in every bicluster of positive area, whether or not they share an
    index, and in no other bicluster. *)
Theorem contained_in_empty_area (a b : Bicluster) :
  Bicluster_wf a → area a = 0%nat →
  (contained_in a b = 1 ↔ (0 < area b)%nat).
Proof.
  intros (Hr & Hc & Ha) Hz. unfold contained_in. rewrite Hz.
  assert (Hi : (size (rows_set a ∩ rows_set b)
                * size (cols_set a ∩ cols_set b))%nat = 0%nat).
  { rewrite Hz in Ha. symmetry in Ha. apply Nat.eq_mul_0 in Ha as [Hl | Hl];
      apply length_zero_iff_nil in Hl.
    - rewrite Hr, Hl, list_to_set_nil, intersection_empty_l_L, size_empty. lia.
    - rewrite Hc, Hl, list_to_set_nil, intersection_empty_l_L, size_empty. lia. }
  rewrite Hi. rewrite (bool_decide_eq_true_2 (0%nat = 0%nat)) by done.
  rewrite andb_true_r. case_bool_decide; split; intros; done.
Qed.

Lemma contained_in_empty_area_witness :
  contained_in bic_no_cols bic_left = 1 ↔ (0 < area bic_left)%nat.
Proof.
  apply (contained_in_empty_area bic_no_cols bic_left);
    [apply bic_of_wf | reflexivity].
Defined.

Lemma intersect1d_length_comm ar1 ar2 :
  length (intersect1d ar1 ar2) = length (intersect1d ar2 ar1).
Proof.
  apply Permutation_length, NoDup_Permutation; try apply intersect1d_NoDup.
  intros x. rewrite !elem_of_intersect1d. tauto.
Qed.

Lemma intersect1d_length_subset ar1 ar2 :
  NoDup ar1 → (∀ x, x ∈ ar1 → x ∈ ar2) →
  length (intersect1d ar1 ar2) = length ar1.
Proof.
  intros Hnd Hsub. apply Permutation_length, NoDup_Permutation;
    [apply intersect1d_NoDup | done |].
  intros x. rewrite elem_of_intersect1d. split; [tauto | auto].
Qed.

(** X10.  [overlap] does not depend on the order of its operands, and it
    raises [ZeroDivisionError] exactly when one of the two areas is 0. *)
Theorem overlap_symmetric (a b : Bicluster) :
  overlap a b = overlap b a
  ∧ (overlap a b = Raise ZeroDivisionError ↔ area a = 0%nat ∨ area b = 0%nat)
  ∧ (is_ok (overlap a b) = true ↔ (0 < area a)%nat ∧ (0 < area b)%nat).
Proof.
  unfold overlap. rewrite !intersection_Ok. simpl. unfold truediv.
  split; [| split].
  - rewrite (intersect1d_length_comm (rows a)), (intersect1d_length_comm (cols a)).
    by rewrite (Nat.min_comm (area a)).
  - case_bool_decide as Hm; split; try done; lia.
  - case_bool_decide as Hm; simpl; split; try done; lia.
Qed.

(** X11.  A bicluster that [contained_in] reports as contained in another
    overlaps it completely: their overlap is 1. *)
Theorem contained_overlap_one (a b : Bicluster) :
  Bicluster_wf a → Bicluster_wf b →
  NoDup (rows a) → NoDup (cols a) → (0 < area a)%nat →
  contained_in a b = 1 → overlap a b = Ok 1%Qc.
Proof.
  intros Ha Hb Hnr Hnc Hpos Hc.
  apply (contained_in_iff_subsets a b Ha Hnr Hnc Hpos) in Hc as (Hr & Hcs & Hlt).
  destruct Ha as (Hra & Hca & Haa), Hb as (Hrb & Hcb & Hab).
  rewrite Hra, Hrb in Hr. rewrite Hca, Hcb in Hcs.
  rewrite (overlap_Ok a b _ (intersection_Ok a b)) by lia. simpl.
  rewrite !intersect1d_length_subset; try done.
  - rewrite <- Haa, Nat.min_l by lia. f_equal.
    apply Qc_div_self, Qc_of_nat_pos, Hpos.
  - intros x Hx. apply (elem_of_list_to_set (C := gset Z)), Hcs.
    by apply elem_of_list_to_set.
  - intros x Hx. apply (elem_of_list_to_set (C := gset Z)), Hr.
    by apply elem_of_list_to_set.
Qed.

Lemma contained_overlap_one_witness : overlap bic_left bic_square = Ok 1%Qc.
Proof.
  destruct NoDup_pair_01 as (H01 & H10 & H0).
  apply (contained_overlap_one bic_left bic_square);
    [apply bic_of_wf | apply bic_of_wf | exact H01 | exact H0 | simpl; lia
    | reflexivity].
Defined.

Lemma StronglySorted_filter (P : Z → Prop) `{∀ x, Decision (P x)} (l : list Z) :
  StronglySorted Z.lt l → StronglySorted Z.lt (filter P l).
Proof.
  induction 1 as [| x l Hs IH Hall]; [constructor |].
  rewrite filter_cons. destruct (decide (P x)); [| done].
  constructor; [done |]. rewrite Forall_forall in Hall. apply Forall_forall.
  intros y [_ Hy]%list_elem_of_filter. by apply Hall.
Qed.

Lemma intersect1d_sorted ar1 ar2 : StronglySorted Z.lt (intersect1d ar1 ar2).
Proof. apply StronglySorted_filter, np_unique_sorted. Qed.

Lemma union1d_sorted ar1 ar2 : StronglySorted Z.lt (union1d ar1 ar2).
Proof. apply np_unique_sorted. Qed.

(** X12.  [intersection] and [union] always succeed and return a fresh
    bicluster without data and without p-value, whose index arrays are
    strictly ascending; its row and column sets are the intersections,
    respectively the unions, of the operands' indices, and its area is the
    product of the sizes of these sets. *)
Theorem intersection_union_result (a b : Bicluster) :
  ∃ i u,
    intersection a b = Ok i ∧ union a b = Ok u
    ∧ StronglySorted Z.lt (rows i) ∧ StronglySorted Z.lt (cols i)
    ∧ StronglySorted Z.lt (rows u) ∧ StronglySorted Z.lt (cols u)
    ∧ rows_set i = list_to_set (rows a) ∩ list_to_set (rows b)
    ∧ cols_set i = list_to_set (cols a) ∩ list_to_set (cols b)
    ∧ rows_set u = list_to_set (rows a) ∪ list_to_set (rows b)
    ∧ cols_set u = list_to_set (cols a) ∪ list_to_set (cols b)
    ∧ data i = None ∧ pvalue i = None ∧ data u = None ∧ pvalue u = None
    ∧ area i = (size (rows_set i) * size (cols_set i))%nat
    ∧ area u = (size (rows_set u) * size (cols_set u))%nat.
Proof.
  eexists _, _. split; [apply intersection_Ok |]. split; [apply union_Ok |].
  simpl.
  split; [apply intersect1d_sorted |]. split; [apply intersect1d_sorted |].
  split; [apply union1d_sorted |]. split; [apply union1d_sorted |].
  split; [| split; [| split; [| split]]].
  - apply set_eq. intros x.
    rewrite elem_of_intersection, !elem_of_list_to_set. apply elem_of_intersect1d.
  - apply set_eq. intros x.
    rewrite elem_of_intersection, !elem_of_list_to_set. apply elem_of_intersect1d.
  - apply set_eq. intros x.
    rewrite elem_of_union, !elem_of_list_to_set. apply elem_of_union1d.
  - apply set_eq. intros x.
    rewrite elem_of_union, !elem_of_list_to_set. apply elem_of_union1d.
  - do 4 (split; [done |]). split.
    + rewrite !size_list_to_set; [done | apply intersect1d_NoDup ..].
    + rewrite !size_list_to_set; [done | |];
        apply StronglySorted_lt_NoDup, union1d_sorted.
Qed.

(** ** Filtering twice *)

Lemma filter_bypvalue_Ok_inv pv bs r :
  filter_bypvalue pv bs = Ok r →
  Forall (λ b, is_Some (pvalue b)) bs ∧ r = List.filter (pvalue_below pv) bs.
Proof.
  revert r. induction bs as [| b bs IH]; intros r; simpl.
  - intros [= <-]. by split.
  - unfold pvalue_lt, pvalue_below. destruct (pvalue b) as [q |] eqn:Hq; [| done].
    simpl. destruct (filter_bypvalue pv bs) as [rest |]; [| done]. simpl.
    destruct (IH rest eq_refl) as [Hall ->]. intros [= <-].
    split; [constructor; [by rewrite Hq | done] |].
    by destruct (bool_decide (q < pv)%Qc).
Qed.

Lemma filter_bool_sublist {A} (f : A → bool) (l : list A) :
  sublist (List.filter f l) l.
Proof.
  induction l as [| x l IH]; simpl; [constructor |].
  destruct (f x); [by apply sublist_skip | by apply sublist_cons].
Qed.

Lemma filter_bool_and {A} (f g : A → bool) (l : list A) :
  List.filter f (List.filter g l) = List.filter (λ x, g x && f x) l.
Proof.
  induction l as [| x l IH]; simpl; [done |].
  destruct (g x) eqn:Hg; simpl; [| done]. destruct (f x); by rewrite IH.
Qed.

Lemma filter_bool_implied {A} (f g : A → bool) (l : list A) :
  (∀ x, f x = true → g x = true) →
  List.filter g (List.filter f l) = List.filter f l
  ∧ sublist (List.filter f l) (List.filter g l).
Proof.
  intros Himp. induction l as [| x l [IH1 IH2]]; simpl; [by split; constructor |].
  destruct (f x) eqn:Hf; simpl.
  - rewrite (Himp x Hf), IH1. split; [done | by apply sublist_skip].
  - split; [done |]. destruct (g x); [by apply sublist_cons | done].
Qed.

Lemma pvalue_below_mono t t' b :
  (t ≤ t')%Qc → pvalue_below t b = true → pvalue_below t' b = true.
Proof.
  intros Hle. unfold pvalue_below. destruct (pvalue b) as [q |]; [| done].
  rewrite !bool_decide_eq_true. intros Hlt. by eapply Qclt_le_trans.
Qed.

Lemma Forall_filter_bool {A} (P : A → Prop) (f : A → bool) (l : list A) :
  Forall P l → Forall P (List.filter f l).
Proof.
  induction 1 as [| x l Hx _ IH]; simpl; [constructor |].
  destruct (f x); [by constructor | done].
Qed.

(** X13.  After a successful [remove_bypvalue] every later filtering
    succeeds: the same threshold changes nothing more, two thresholds can be
    applied in either order with the same result, and what passes a
    threshold passes every larger one. *)
Theorem remove_bypvalue_composes (t : Qc) (self s1 : Biclustering) :
  remove_bypvalue t self = Ok s1 →
  sublist (biclusters s1) (biclusters self)
  ∧ remove_bypvalue t s1 = Ok s1
  ∧ ∀ t', ∃ s2 s12,
      remove_bypvalue t' self = Ok s2
      ∧ remove_bypvalue t' s1 = Ok s12
      ∧ remove_bypvalue t s2 = Ok s12
      ∧ ((t ≤ t')%Qc → s12 = s1 ∧ sublist (biclusters s1) (biclusters s2)).
Proof.
  unfold remove_bypvalue. destruct self as [bs], s1 as [bs1]. simpl.
  destruct (filter_bypvalue t bs) as [r |] eqn:Hr; [| done]. simpl.
  intros [= <-]. apply filter_bypvalue_Ok_inv in Hr as [Hall ->].
  pose proof (Forall_filter_bool _ (pvalue_below t) bs Hall) as Hall1.
  split; [apply filter_bool_sublist |]. split.
  - rewrite (filter_bypvalue_all_set _ _ Hall1). simpl.
    by rewrite (proj1 (filter_bool_implied _ _ bs (λ x H, H))).
  - intros t'.
    pose proof (Forall_filter_bool _ (pvalue_below t') bs Hall) as Hall2.
    exists {| biclusters := List.filter (pvalue_below t') bs |},
      {| biclusters := List.filter (pvalue_below t')
                         (List.filter (pvalue_below t) bs) |}.
    simpl.
    rewrite (filter_bypvalue_all_set _ _ Hall), (filter_bypvalue_all_set _ _ Hall1),
      (filter_bypvalue_all_set _ _ Hall2). simpl.
    split; [done |]. split; [done |]. split.
    + rewrite !filter_bool_and. do 2 f_equal. apply filter_ext.
      intros b. apply andb_comm.
    + intros Hle.
      destruct (filter_bool_implied (pvalue_below t) (pvalue_below t') bs
                  (λ b, pvalue_below_mono t t' b Hle)) as [H1 H2].
      by rewrite H1.
Qed.

Lemma remove_bypvalue_composes_witness :
  let self := {| biclusters := [set_pvalue bic_left (Some (Q2Qc (1 # 100)));
                                set_pvalue bic_right (Some (Q2Qc (1 # 2)))] |} in
  let s1 := {| biclusters := [set_pvalue bic_left (Some (Q2Qc (1 # 100)))] |} in
  sublist (biclusters s1) (biclusters self)
  ∧ remove_bypvalue (Q2Qc (1 # 20)) s1 = Ok s1
  ∧ ∀ t', ∃ s2 s12,
      remove_bypvalue t' self = Ok s2
      ∧ remove_bypvalue t' s1 = Ok s12
      ∧ remove_bypvalue (Q2Qc (1 # 20)) s2 = Ok s12
      ∧ ((Q2Qc (1 # 20) ≤ t')%Qc
         → s12 = s1 ∧ sublist (biclusters s1) (biclusters s2)).
Proof.
  intros self s1. apply (remove_bypvalue_composes (Q2Qc (1 # 20)) self s1).
  reflexivity.
Defined.

(** ** Sorting a collection by area *)

Lemma insert_by_area_Permutation b l : insert_by_area b l ≡ₚ b :: l.
Proof.
  induction l as [| y l IH]; simpl; [done |].
  case_bool_decide; [done |]. rewrite IH. apply Permutation_swap.
Qed.

Lemma insert_by_area_sorted b l :
  StronglySorted area_le l → StronglySorted area_le (insert_by_area b l).
Proof.
  induction 1 as [| y l Hs IH Hall]; simpl; [repeat constructor |].
  case_bool_decide as Hle.
  - constructor; [by constructor |]. constructor; [exact Hle |].
    eapply Forall_impl; [exact Hall |]. unfold area_le. simpl. lia.
  - constructor; [done |]. rewrite insert_by_area_Permutation.
    constructor; [unfold area_le; lia | done].
Qed.

(** Inserting a member does not disturb the order among the members of any
    one area. *)
Lemma insert_by_area_filter (k : nat) b l :
  filter (λ x, area x = k) (insert_by_area b l)
  = filter (λ x, area x = k) (b :: l).
Proof.
  induction l as [| y l IH]; simpl; [done |].
  case_bool_decide as Hle; [done |].
  rewrite (filter_cons _ y), IH, !filter_cons.
  destruct (decide (area y = k)), (decide (area b = k)); try done. lia.
Qed.

Lemma sorted_by_area_Permutation l : sorted_by_area l ≡ₚ l.
Proof.
  induction l as [| x l IH]; simpl; [done |].
  by rewrite insert_by_area_Permutation, IH.
Qed.

Lemma sorted_by_area_sorted l : StronglySorted area_le (sorted_by_area l).
Proof.
  induction l as [| x l IH]; simpl; [constructor | by apply insert_by_area_sorted].
Qed.

Lemma sorted_by_area_filter (k : nat) l :
  filter (λ x, area x = k) (sorted_by_area l) = filter (λ x, area x = k) l.
Proof.
  induction l as [| x l IH]; simpl; [done |].
  by rewrite insert_by_area_filter, !filter_cons, IH.
Qed.

Lemma rev_reverse {A} (l : list A) : rev l = reverse l.
Proof. unfold reverse. apply rev_alt. Qed.

(** X14.  [sort_by_area] rearranges the members without losing or adding
    any, into ascending order of area, or descending order when asked; in
    both directions members of equal area keep the order they had. *)
Theorem sort_by_area_stable (descending : bool) (self : Biclustering) :
  let out := biclusters (sort_by_area descending self) in
  out ≡ₚ biclusters self
  ∧ (if descending then Sorted (flip area_le) out else Sorted area_le out)
  ∧ ∀ k : nat, filter (λ b, area b = k) out
               = filter (λ b, area b = k) (biclusters self).
Proof.
  destruct self as [bs]. destruct descending; simpl.
  - rewrite !rev_reverse. split; [| split].
    + by rewrite reverse_Permutation, sorted_by_area_Permutation,
        reverse_Permutation.
    + apply Sorted_reverse, StronglySorted_Sorted, sorted_by_area_sorted.
    + intros k. rewrite filter_reverse, sorted_by_area_filter, filter_reverse.
      apply reverse_involutive.
  - split; [apply sorted_by_area_Permutation |].
    split; [apply StronglySorted_Sorted, sorted_by_area_sorted |].
    intros k. apply sorted_by_area_filter.
Qed.

(** Areas 2, 4, 2, 1: the two members of area 2 keep their order in both
    directions. *)
Example sort_by_area_sample :
  biclusters (sort_by_area false {| biclusters := area_sample |})
  = [bic_cell; bic_left; bic_swapped; bic_right]
  ∧ biclusters (sort_by_area true {| biclusters := area_sample |})
    = [bic_right; bic_left; bic_swapped; bic_cell].
Proof. split; reflexivity. Qed.

(** ** Building a collection *)

Lemma as_Bicluster_round_trip (l : list pyobj) :
  Forall (λ o, ∃ b, o = ObjBicluster b) l →
  ObjBicluster <$> omap as_Bicluster l = l.
Proof.
  induction 1 as [| o l [b ->] _ IH]; [done |].
  cbn [omap list_omap as_Bicluster]. rewrite fmap_cons. by f_equal.
Qed.

(** X15.  [Biclustering] accepts a list exactly when every element is a
    [Bicluster], the empty list included, and then holds these elements in
    the given order; any other list raises [ValueError]. *)
Theorem Biclustering_init_homogeneous (l : list pyobj) :
  (Forall (λ o, ∃ b, o = ObjBicluster b) l →
     ∃ c, Biclustering_init l = Ok c ∧ ObjBicluster <$> biclusters c = l)
  ∧ (Exists (λ o, o = ObjOther) l → Biclustering_init l = Raise ValueError)
  ∧ Biclustering_init [] = Ok {| biclusters := [] |}.
Proof.
  unfold Biclustering_init. split; [| split; [| done]].
  - intros Hall.
    assert (forallb isinstance_Bicluster l = true) as ->.
    { apply forallb_forall. intros o Ho%list_elem_of_In.
      rewrite Forall_forall in Hall. by destruct (Hall o Ho) as [b ->]. }
    eexists. split; [done |]. simpl. by apply as_Bicluster_round_trip.
  - intros Hex.
    assert (forallb isinstance_Bicluster l = false) as ->; [| done].
    induction Hex as [o l -> | o l _ IH]; simpl; [done |].
    rewrite IH. apply andb_false_r.
Qed.

(** ** The binomial tail *)

Lemma Qc_sum_app l1 l2 : Qc_sum (l1 ++ l2) = (Qc_sum l1 + Qc_sum l2)%Qc.
Proof.
  induction l1 as [| x l1 IH]; simpl; [by rewrite Qcplus_0_l |].
  rewrite IH. ring.
Qed.

Lemma Qc_sum_nonneg l : Forall (λ x, (0 ≤ x)%Qc) l → (0 ≤ Qc_sum l)%Qc.
Proof.
  induction 1 as [| x l Hx _ IH]; simpl; [done |].
  by apply Qcplus_nonneg_nonneg.
Qed.

Lemma Qc_sum_zero l : Forall (λ x, x = 0%Qc) l → Qc_sum l = 0%Qc.
Proof.
  induction 1 as [| x l -> _ IH]; simpl; [done |]. rewrite IH. ring.
Qed.

Lemma Qc_sum_map_ext {A} (f g : A → Qc) (l : list A) :
  (∀ i, i ∈ l → f i = g i) → Qc_sum (map f l) = Qc_sum (map g l).
Proof.
  induction l as [| x l IH]; intros Hfg; simpl; [done |].
  rewrite (Hfg x), IH; [done | | by left].
  intros i Hi. apply Hfg. by right.
Qed.

Lemma Qc_sum_map_plus {A} (f g : A → Qc) (l : list A) :
  Qc_sum (map (λ i, f i + g i)%Qc l) = (Qc_sum (map f l) + Qc_sum (map g l))%Qc.
Proof. induction l as [| x l IH]; simpl; [ring |]. rewrite IH. ring. Qed.

Lemma Qc_sum_map_scale {A} (c : Qc) (f : A → Qc) (l : list A) :
  Qc_sum (map (λ i, c * f i)%Qc l) = (c * Qc_sum (map f l))%Qc.
Proof. induction l as [| x l IH]; simpl; [ring |]. rewrite IH. ring. Qed.

Lemma choose_0_r n : choose n 0 = 1%nat.
Proof. by destruct n. Qed.

Lemma choose_gt n k : (n < k)%nat → choose n k = 0%nat.
Proof.
  revert k. induction n as [| n IH]; intros [| k] Hlt; simpl; try lia.
  rewrite !IH by lia. done.
Qed.

Lemma choose_diag n : choose n n = 1%nat.
Proof.
  induction n as [| n IH]; simpl; [done |]. rewrite IH, choose_gt by lia. done.
Qed.

Lemma Qc_of_nat_plus n m : Qc_of_nat (n + m) = (Qc_of_nat n + Qc_of_nat m)%Qc.
Proof. unfold Qc_of_nat. by rewrite Nat2Z.inj_add, Z2Qc_inj_add. Qed.

Lemma Qc_of_nat_1 : Qc_of_nat 1 = 1%Qc.
Proof. apply Z2Qc_inj_1. Qed.

Lemma Qc_sum_cons x l : Qc_sum (x :: l) = (x + Qc_sum l)%Qc.
Proof. reflexivity. Qed.

Lemma expansion_step p q n m :
  expansion p q (S n) (S m)
  = (p * expansion p q n m + q * expansion p q n (S m))%Qc.
Proof.
  unfold expansion. rewrite <- !Qc_sum_map_scale.
  change (seq 0 (S m)) with (0%nat :: seq 1 m).
  rewrite <- seq_shift, !map_cons, !Qc_sum_cons, !map_map.
  assert (Hterm : ∀ j, j ∈ seq 0 m →
    (Qc_of_nat (choose (S n) (S j)) * p ^ S j * q ^ (S n - S j))%Qc
    = (p * (Qc_of_nat (choose n j) * p ^ j * q ^ (n - j))
       + q * (Qc_of_nat (choose n (S j)) * p ^ S j * q ^ (n - S j)))%Qc).
  { intros j _. cbn [choose Nat.sub]. rewrite Qc_of_nat_plus.
    destruct (decide (j < n)%nat) as [Hlt | Hge].
    - replace (n - j)%nat with (S (n - S j)) by lia. cbn [Qcpower].
      generalize (p ^ j)%Qc (q ^ (n - S j))%Qc (Qc_of_nat (choose n j))
        (Qc_of_nat (choose n (S j))). intros. ring.
    - rewrite (choose_gt n (S j)) by lia. rewrite Qc_of_nat_0.
      replace (n - j)%nat with 0%nat by lia. cbn [Qcpower].
      generalize (p ^ j)%Qc (q ^ (n - S j))%Qc (Qc_of_nat (choose n j)).
      intros. ring. }
  rewrite (Qc_sum_map_ext _ _ _ Hterm), Qc_sum_map_plus.
  rewrite !choose_0_r, !Nat.sub_0_r, Qc_of_nat_1. cbn [Qcpower].
  generalize (q ^ n)%Qc
    (Qc_sum (map (λ x, p * (Qc_of_nat (choose n x) * p ^ x * q ^ (n - x)))%Qc
               (seq 0 m)))
    (Qc_sum (map (λ x, q * (Qc_of_nat (choose n (S x)) * p ^ S x * q ^ (n - S x)))%Qc
               (seq 0 m))).
  intros. ring.
Qed.

Lemma expansion_0 p q m : expansion p q 0 (S m) = 1%Qc.
Proof.
  unfold expansion. change (seq 0 (S m)) with (0%nat :: seq 1 m).
  rewrite map_cons, Qc_sum_cons.
  rewrite Qc_sum_zero; [cbn [choose Nat.sub Qcpower]; rewrite Qc_of_nat_1; ring |].
  apply Forall_forall. intros x (i & -> & Hi)%list_elem_of_fmap.
  apply elem_of_seq in Hi. rewrite choose_gt by lia. rewrite Qc_of_nat_0. ring.
Qed.

(** The binomial theorem, over any range of indices that goes past [n]. *)
Lemma expansion_full p q n m :
  (n < m)%nat → expansion p q n m = ((p + q) ^ n)%Qc.
Proof.
  revert m. induction n as [| n IH]; intros [| m] Hlt; try lia.
  - apply expansion_0.
  - rewrite expansion_step. destruct m as [| m]; [lia |].
    rewrite !IH by lia. simpl. ring.
Qed.

Lemma binom_total n p : Qc_sum (map (binom_pmf n p) (seq 0 (S n))) = 1%Qc.
Proof.
  change (expansion p (1 - p) n (S n) = 1%Qc).
  rewrite expansion_full by lia.
  replace (p + (1 - p))%Qc with 1%Qc by ring. apply Qcpower_1.
Qed.

Lemma binom_pmf_nonneg n p i : unit_interval p → (0 ≤ binom_pmf n p i)%Qc.
Proof.
  intros [H0 H1]. unfold binom_pmf.
  repeat apply Qcmult_nonneg_nonneg; [apply Qc_of_nat_nonneg | ..];
    apply Qcpower_pos; [done |].
  apply Qcle_minus_iff in H1. by replace (1 - p)%Qc with (1 + - p)%Qc by ring.
Qed.

Lemma binom_tail_nonneg n p a len :
  unit_interval p → (0 ≤ Qc_sum (map (binom_pmf n p) (seq a len)))%Qc.
Proof.
  intros Hp. apply Qc_sum_nonneg, Forall_forall.
  intros x (i & -> & _)%list_elem_of_fmap. by apply binom_pmf_nonneg.
Qed.

(** With at least as many successes asked for as there are trials, nothing
    is left of the tail. *)
Lemma binom_sf_ge_n k n p : (n ≤ k)%nat → binom_sf k n p = 0%Qc.
Proof. intros Hle. unfold binom_sf. by replace (n - k)%nat with 0%nat by lia. Qed.

Lemma binom_sf_unit_interval k n p :
  unit_interval p → unit_interval (binom_sf k n p).
Proof.
  intros Hp. split; [by apply binom_tail_nonneg |].
  destruct (decide (n ≤ k)%nat) as [Hle | Hgt].
  - by rewrite binom_sf_ge_n.
  - pose proof (binom_total n p) as Ht.
    replace (S n) with (S k + (n - k))%nat in Ht by lia.
    rewrite seq_app, map_app, Qc_sum_app in Ht. simpl plus in Ht.
    change (Qc_sum (map (binom_pmf n p) (seq (S k) (n - k))))
      with (binom_sf k n p) in Ht.
    pose proof (binom_tail_nonneg n p 0 (S k) Hp) as Hhead.
    rewrite <- Ht. rewrite <- (Qcplus_0_l (binom_sf k n p)) at 1.
    by apply Qcplus_le_mono_r.
Qed.

(** A success probability of 0 leaves no chance of any success. *)
Lemma binom_sf_p0 k n : binom_sf k n 0%Qc = 0%Qc.
Proof.
  unfold binom_sf. apply Qc_sum_zero, Forall_forall.
  intros x (i & -> & Hi)%list_elem_of_fmap. apply elem_of_seq in Hi.
  unfold binom_pmf. rewrite Qcpower_0 by lia. ring.
Qed.

(** A success probability of 1 makes every trial a success. *)
Lemma binom_sf_p1 k n : (k < n)%nat → binom_sf k n 1%Qc = 1%Qc.
Proof.
  intros Hlt. unfold binom_sf.
  replace (n - k)%nat with (S (n - S k)) by lia.
  rewrite seq_S, map_app, Qc_sum_app.
  replace (S k + (n - S k))%nat with n by lia.
  rewrite Qc_sum_zero.
  - cbn [map]. rewrite Qc_sum_cons. unfold Qc_sum, binom_pmf. cbn [foldr].
    rewrite choose_diag, Nat.sub_diag, Qc_of_nat_1, Qcpower_1.
    cbn [Qcpower]. ring.
  - apply Forall_forall. intros x (i & -> & Hi)%list_elem_of_fmap.
    apply elem_of_seq in Hi. unfold binom_pmf.
    replace (1 - 1)%Qc with 0%Qc by ring. rewrite (Qcpower_0 (n - i)) by lia. ring.
Qed.

(** Asking for one more success cannot raise the tail. *)
Lemma binom_sf_antitone k n p :
  unit_interval p → (binom_sf (S k) n p ≤ binom_sf k n p)%Qc.
Proof.
  intros Hp. destruct (decide (n ≤ S k)%nat) as [Hle | Hgt].
  - rewrite binom_sf_ge_n by done. by apply binom_tail_nonneg.
  - unfold binom_sf. replace (n - k)%nat with (S (n - S k)) by lia.
    cbn [seq map]. rewrite Qc_sum_cons.
    rewrite <- (Qcplus_0_l (Qc_sum _)) at 1.
    apply Qcplus_le_mono_r. by apply binom_pmf_nonneg.
Qed.

(** ** A run of the scoring loop *)

Lemma score_all_None sc bs out :
  score_all sc bs = (out, None) → Forall2 (annotated sc) bs out.
Proof.
  revert out. induction bs as [| b bs IH]; intros out; simpl.
  - intros [= <-]. constructor.
  - destruct (sc b) as [q |] eqn:Hq; [| done].
    destruct (score_all sc bs) as [out' e] eqn:Hrec. simpl.
    intros [= <- ->]. constructor; [by exists q | by apply IH].
Qed.

Lemma score_all_Some sc bs out e :
  score_all sc bs = (out, Some e) →
  ∃ pre pre' b post,
    bs = pre ++ b :: post ∧ out = pre' ++ b :: post
    ∧ Forall2 (annotated sc) pre pre' ∧ sc b = Raise e.
Proof.
  revert out. induction bs as [| b bs IH]; intros out; simpl; [done |].
  destruct (sc b) as [q |] eqn:Hq.
  - destruct (score_all sc bs) as [out' e'] eqn:Hrec. simpl. intros [= <- ->].
    destruct (IH out' eq_refl) as (pre & pre' & b0 & post & -> & -> & Hpre & Hb0).
    exists (b :: pre), (set_pvalue b (Some q) :: pre'), b0, post.
    repeat split; [| done]. constructor; [by exists q | done].
  - intros [= <- <-]. exists [], [], b, bs. repeat split; [constructor | done].
Qed.


Lemma annotated_unit_interval data_matrix labels mc n_rows freq_cols b b' :
  freq_table data_matrix labels mc = Ok (n_rows, freq_cols) →
  annotated (score n_rows freq_cols labels) b b' →
  rows b' = rows b ∧ cols b' = cols b ∧ rows_set b' = rows_set b
  ∧ cols_set b' = cols_set b ∧ data b' = data b ∧ area b' = area b
  ∧ ∃ q, pvalue b' = Some q ∧ unit_interval q.
Proof.
  intros Hft (q & Hq & ->). simpl. do 6 (split; [done |]).
  exists q. split; [done |].
  apply score_Ok_sf in Hq as (p & Hp & -> & _).
  apply binom_sf_unit_interval.
  by eapply score_probability_unit_interval.
Qed.

(** X16.  A run that ends without an exception gives every member a
    p-value between 0 and 1 and changes nothing else, neither the members'
    other fields nor their number or order; filtering by p-value then never
    raises. *)
Theorem run_success (data_matrix : ndarray) (labels : list Z) (mc : bool)
    (self out : Biclustering) :
  run_constant_freq_column data_matrix labels mc self = (out, None) →
  Forall2 (λ b b',
      rows b' = rows b ∧ cols b' = cols b ∧ rows_set b' = rows_set b
      ∧ cols_set b' = cols_set b ∧ data b' = data b ∧ area b' = area b
      ∧ ∃ q, pvalue b' = Some q ∧ unit_interval q)
    (biclusters self) (biclusters out)
  ∧ length (biclusters out) = length (biclusters self)
  ∧ ∀ t, is_ok (remove_bypvalue t out) = true.
Proof.
  unfold run_constant_freq_column.
  destruct (freq_table data_matrix labels mc) as [[n_rows freq_cols] |] eqn:Hft;
    [| done].
  destruct (score_all _ (biclusters self)) as [bs e] eqn:Hsc. simpl.
  intros [= <- ->]. simpl. apply score_all_None in Hsc.
  assert (H2 : Forall2 (λ b b',
      rows b' = rows b ∧ cols b' = cols b ∧ rows_set b' = rows_set b
      ∧ cols_set b' = cols_set b ∧ data b' = data b ∧ area b' = area b
      ∧ ∃ q, pvalue b' = Some q ∧ unit_interval q) (biclusters self) bs).
  { eapply Forall2_impl; [exact Hsc |]. intros b b'.
    by apply annotated_unit_interval with data_matrix mc. }
  split; [exact H2 |]. split; [symmetry; by eapply Forall2_length |].
  intros t. unfold remove_bypvalue. simpl.
  rewrite filter_bypvalue_all_set; [done |].
  apply Forall2_Forall_r with (Q := λ b', is_Some (pvalue b')) in H2; [done |].
  apply Forall_forall. intros b _ b' (_ & _ & _ & _ & _ & _ & q & Hq & _).
  by rewrite Hq.
Qed.

Lemma scenario_joint_prob :
  joint_prob
    (map (λ col_idx, freq_row 4 [0; 1] false
                       (column [[1; 0]; [1; 0]; [0; 1]; [1; 1]] col_idx)) (seq 0 2))
    [0; 1] bic_scored (cols bic_scored) 0 1%Qc = Ok (Q2Qc (3 # 4)).
Proof. simpl. f_equal; Qc_closed. Qed.

Lemma scenario_run :
  run_constant_freq_column scenario_matrix [0; 1] false {| biclusters := [bic_scored] |}
  = ({| biclusters := [set_pvalue bic_scored (Some (binom_sf 2 4 (Q2Qc (3 # 4))))] |},
     None).
Proof.
  apply (run_single_member _ _ _ 4%nat
           (map (λ col_idx, freq_row 4 [0; 1] false
              (column [[1; 0]; [1; 0]; [0; 1]; [1; 1]] col_idx)) (seq 0 2)));
    [reflexivity |].
  unfold score. rewrite scenario_joint_prob. reflexivity.
Qed.

Lemma run_success_witness :
  let self := {| biclusters := [bic_scored] |} in
  let out := {| biclusters :=
                  [set_pvalue bic_scored (Some (binom_sf 2 4 (Q2Qc (3 # 4))))] |} in
  Forall2 (λ b b',
      rows b' = rows b ∧ cols b' = cols b ∧ rows_set b' = rows_set b
      ∧ cols_set b' = cols_set b ∧ data b' = data b ∧ area b' = area b
      ∧ ∃ q, pvalue b' = Some q ∧ unit_interval q)
    (biclusters self) (biclusters out)
  ∧ length (biclusters out) = length (biclusters self)
  ∧ ∀ t, is_ok (remove_bypvalue t out) = true.
Proof.
  intros self out.
  apply (run_success scenario_matrix [0; 1] false self out). exact scenario_run.
Defined.

Lemma half_scored_run :
  run_constant_freq_column scenario_matrix [0; 1] false {| biclusters := half_scored |}
  = ({| biclusters :=
          [set_pvalue bic_scored (Some (binom_sf 2 4 (Q2Qc (3 # 4))));
           bic_left; bic_right] |},
     Some AttributeError).
Proof.
  unfold run_constant_freq_column.
  change (freq_table scenario_matrix [0; 1] false)
    with (Ok (4%nat, map (λ col_idx, freq_row 4 [0; 1] false
                (column [[1; 0]; [1; 0]; [0; 1]; [1; 1]] col_idx)) (seq 0 2))).
  cbv beta iota. unfold half_scored. cbn [score_all biclusters].
  unfold score at 1. rewrite scenario_joint_prob. cbn [mbind result_bind].
  rewrite score_no_data by done. reflexivity.
Qed.

(** *** The loop on shared objects *)

(** The score of a member does not read its [pvalue]. *)
Lemma joint_prob_set_pvalue freq_cols labels b pv cs j p :
  joint_prob freq_cols labels (set_pvalue b pv) cs j p
  = joint_prob freq_cols labels b cs j p.
Proof.
  revert j p. induction cs as [| col cs IH]; intros j p; [done |].
  simpl. unfold get_data. simpl. destruct (data b) as [a |]; [| done]. simpl.
  destruct (item_0 a j) as [x |]; [| done]. simpl.
  destruct (labels_index labels x) as [k |]; [| done]. simpl.
  destruct (freq_at freq_cols col k) as [f |]; [| done]. simpl. apply IH.
Qed.

Lemma score_set_pvalue n_rows freq_cols labels b pv :
  score n_rows freq_cols labels (set_pvalue b pv)
  = score n_rows freq_cols labels b.
Proof. unfold score. simpl. by rewrite joint_prob_set_pvalue. Qed.

Lemma obj_set_same σ r b : obj_set σ r b r = b.
Proof. unfold obj_set. by rewrite bool_decide_eq_true_2. Qed.

Lemma obj_set_other σ r b x : x ≠ r → obj_set σ r b x = σ x.
Proof. intros Hx. unfold obj_set. by rewrite bool_decide_eq_false_2. Qed.

Lemma score_objects_untouched sc refs σ x :
  x ∉ refs → (score_objects sc refs σ).1 x = σ x.
Proof.
  revert σ. induction refs as [| r refs IH]; intros σ Hx; [done |].
  apply not_elem_of_cons in Hx as [Hne Hx]. simpl.
  destruct (sc (σ r)) as [q |]; [| done].
  rewrite IH by done. by apply obj_set_other.
Qed.

Lemma score_objects_Some sc refs σ σ' e :
  (∀ b pv, sc (set_pvalue b pv) = sc b) →
  score_objects sc refs σ = (σ', Some e) →
  ∃ pre r post,
    refs = pre ++ r :: post
    ∧ sc (σ r) = Raise e
    ∧ (∀ x, x ∈ pre → annotated sc (σ x) (σ' x))
    ∧ (∀ x, x ∉ pre → σ' x = σ x).
Proof.
  intros Hsc. revert σ. induction refs as [| r refs IH]; intros σ; simpl; [done |].
  destruct (sc (σ r)) as [q |] eqn:Hq.
  - intros Hrec.
    destruct (IH _ Hrec) as (pre & r0 & post & -> & Hr0 & Hpre & Hrest).
    assert (Hne : r0 ≠ r).
    { intros ->. rewrite obj_set_same, Hsc, Hq in Hr0. discriminate. }
    exists (r :: pre), r0, post. split; [done |].
    split; [by rewrite obj_set_other in Hr0 |]. split.
    + intros x Hx. destruct (decide (x = r)) as [-> | Hxr].
      * exists q. split; [done |].
        destruct (decide (r ∈ pre)) as [Hin | Hout].
        -- destruct (Hpre r Hin) as (q' & Hq' & ->).
           rewrite obj_set_same, Hsc, Hq in Hq'. injection Hq' as <-.
           by rewrite obj_set_same.
        -- by rewrite (Hrest r Hout), obj_set_same.
      * apply elem_of_cons in Hx as [? | Hx]; [done |].
        specialize (Hpre x Hx). by rewrite obj_set_other in Hpre.
    + intros x Hx. apply not_elem_of_cons in Hx as [Hxr Hx].
      rewrite (Hrest x Hx). by apply obj_set_other.
  - intros [= <- <-]. exists [], r, refs. split; [done |]. split; [done |].
    split; [| done]. intros x Hx. by apply elem_of_nil in Hx.
Qed.

(** On a list that names no object twice, the loop on objects is the loop
    on the members by value. *)
Lemma score_objects_by_value sc refs σ :
  NoDup refs →
  score_all sc (map σ refs)
  = (map (score_objects sc refs σ).1 refs, (score_objects sc refs σ).2).
Proof.
  intros Hnd. revert σ. induction Hnd as [| r refs Hr Hnd IH]; intros σ; [done |].
  simpl. destruct (sc (σ r)) as [q |] eqn:Hq; [| done].
  set (σ1 := obj_set σ r (set_pvalue (σ r) (Some q))).
  assert (Hmap : map σ refs = map σ1 refs).
  { apply map_ext_in. intros x Hx%list_elem_of_In. symmetry.
    apply obj_set_other. by intros ->. }
  rewrite Hmap, IH. simpl. f_equal. f_equal.
  rewrite score_objects_untouched by done. unfold σ1. by rewrite obj_set_same.
Qed.

Lemma run_objects_by_value data_matrix labels mc refs σ :
  NoDup refs →
  run_constant_freq_column data_matrix labels mc (members refs σ)
  = (members refs (run_objects data_matrix labels mc refs σ).1,
     (run_objects data_matrix labels mc refs σ).2).
Proof.
  intros Hnd. unfold run_constant_freq_column, run_objects, members.
  destruct (freq_table data_matrix labels mc) as [[n_rows freq_cols] | e]; [| done].
  simpl. by rewrite score_objects_by_value.
Qed.

Lemma score_objects_None sc refs σ σ' :
  (∀ b pv, sc (set_pvalue b pv) = sc b) →
  score_objects sc refs σ = (σ', None) →
  (∀ x, x ∈ refs → annotated sc (σ x) (σ' x))
  ∧ (∀ x, x ∉ refs → σ' x = σ x).
Proof.
  intros Hsc. revert σ. induction refs as [| r refs IH]; intros σ; simpl.
  { intros [= <-]. split; [| done]. intros x Hx. by apply elem_of_nil in Hx. }
  destruct (sc (σ r)) as [q |] eqn:Hq; [| done].
  intros Hrec. destruct (IH _ Hrec) as [Hin Hout]. split.
  - intros x Hx. destruct (decide (x = r)) as [-> | Hxr].
    + exists q. split; [done |].
      destruct (decide (r ∈ refs)) as [Hr | Hr].
      * destruct (Hin r Hr) as (q' & Hq' & ->).
        rewrite obj_set_same, Hsc, Hq in Hq'. injection Hq' as <-.
        by rewrite obj_set_same.
      * by rewrite (Hout r Hr), obj_set_same.
    + apply elem_of_cons in Hx as [? | Hx]; [done |].
      specialize (Hin x Hx). by rewrite obj_set_other in Hin.
  - intros x Hx. apply not_elem_of_cons in Hx as [Hxr Hx].
    rewrite (Hout x Hx). by apply obj_set_other.
Qed.

Lemma score_all_exception_ext sc bs bs' :
  Forall2 (λ b b', sc b = sc b') bs bs' →
  (score_all sc bs).2 = (score_all sc bs').2.
Proof.
  induction 1 as [| b b' bs bs' Hb _ IH]; [done |].
  simpl. rewrite <- Hb. by destruct (sc b).
Qed.

(** Whatever the list names, the loop on objects stops with the exception
    the loop by value stops with, and a run that is not stopped leaves the
    members as the loop by value leaves them: a [pvalue] written to an
    object listed again is written again, with the same value. *)
Lemma score_objects_exception sc refs σ :
  (∀ b pv, sc (set_pvalue b pv) = sc b) →
  (score_objects sc refs σ).2 = (score_all sc (map σ refs)).2.
Proof.
  intros Hsc. revert σ. induction refs as [| r refs IH]; intros σ; [done |].
  simpl. destruct (sc (σ r)) as [q |] eqn:Hq; [| done].
  simpl. rewrite IH. apply score_all_exception_ext.
  apply Forall2_fmap, Forall_Forall2_diag, Forall_forall. intros x _.
  unfold obj_set. case_bool_decide as Hx; [| done]. subst x. apply Hsc.
Qed.

Lemma annotated_functional sc b b1 b2 :
  annotated sc b b1 → annotated sc b b2 → b1 = b2.
Proof. intros (q1 & H1 & ->) (q2 & H2 & ->). congruence. Qed.

Lemma score_objects_success sc refs σ :
  (∀ b pv, sc (set_pvalue b pv) = sc b) →
  (score_objects sc refs σ).2 = None →
  score_all sc (map σ refs) = (map (score_objects sc refs σ).1 refs, None).
Proof.
  intros Hsc Hnone.
  destruct (score_objects sc refs σ) as [σ' oe] eqn:Hobj. simpl in *. subst oe.
  destruct (score_objects_None _ _ _ _ Hsc Hobj) as [Hin _].
  pose proof (score_objects_exception sc refs σ Hsc) as He.
  rewrite Hobj in He. simpl in He.
  destruct (score_all sc (map σ refs)) as [out oe] eqn:Hval. simpl in He. subst oe.
  f_equal. apply score_all_None in Hval. clear Hobj.
  revert out Hval. induction refs as [| r refs IH]; intros out Hval.
  { by apply Forall2_nil_inv_l in Hval as ->. }
  simpl in Hval. apply Forall2_cons_inv_l in Hval as (b & out' & Hb & Hrest & ->).
  simpl. f_equal.
  - eapply annotated_functional; [exact Hb |]. apply Hin, elem_of_cons. by left.
  - apply IH; [| done]. intros x Hx. apply Hin, elem_of_cons. by right.
Qed.

(** X17.  A run stopped by an exception leaves the objects half annotated:
    every object listed before the place where the run stopped carries its
    new p-value, at all the places that list it, later ones too; the object
    that failed and every object listed only after it are as they were.
    When the matrix itself is refused, no object is touched. *)
Theorem run_failure_partial (data_matrix : ndarray) (labels : list Z) (mc : bool)
    (refs : list nat) (σ σ' : objects) (e : exn) :
  run_objects data_matrix labels mc refs σ = (σ', Some e) →
  (∃ xs, data_matrix = Nd1 xs ∧ e = IndexError ∧ σ' = σ)
  ∨ ∃ n_rows freq_cols pre r post,
      freq_table data_matrix labels mc = Ok (n_rows, freq_cols)
      ∧ refs = pre ++ r :: post
      ∧ score n_rows freq_cols labels (σ r) = Raise e
      ∧ (∀ x, x ∈ pre → annotated (score n_rows freq_cols labels) (σ x) (σ' x))
      ∧ (∀ x, x ∉ pre → σ' x = σ x).
Proof.
  unfold run_objects.
  destruct (freq_table data_matrix labels mc) as [[n_rows freq_cols] | e'] eqn:Hft.
  - intros Hsc. right.
    apply score_objects_Some in Hsc as (pre & r & post & H1 & H2 & H3 & H4);
      [| intros b pv; apply score_set_pvalue].
    by exists n_rows, freq_cols, pre, r, post.
  - intros [= <- <-]. left. destruct data_matrix as [xs | m rs]; [| done].
    simpl in Hft. injection Hft as <-. by exists xs.
Qed.

(** Object 0 is listed before and after the object without data at which
    the run stops: it carries its new p-value, also where the list names it
    after that object. *)
Lemma shared_refs_run :
  run_objects scenario_matrix [0; 1] false shared_refs two_objects
  = (two_objects_scored, Some AttributeError).
Proof.
  unfold run_objects.
  change (freq_table scenario_matrix [0; 1] false)
    with (Ok (4%nat, map (λ col_idx, freq_row 4 [0; 1] false
                (column [[1; 0]; [1; 0]; [0; 1]; [1; 1]] col_idx)) (seq 0 2))).
  cbv beta iota. unfold shared_refs. cbn [score_objects].
  change (two_objects 0%nat) with bic_scored.
  unfold score at 1. rewrite scenario_joint_prob. cbn [mbind result_bind].
  change (obj_set two_objects 0%nat
            (set_pvalue bic_scored (Some (binom_sf 2 4 (Q2Qc (3 # 4))))) 1%nat)
    with bic_left.
  rewrite score_no_data by done. reflexivity.
Qed.

Example shared_refs_members :
  biclusters (members shared_refs two_objects_scored)
  = [set_pvalue bic_scored (Some (binom_sf 2 4 (Q2Qc (3 # 4)))); bic_left;
     set_pvalue bic_scored (Some (binom_sf 2 4 (Q2Qc (3 # 4))))].
Proof. reflexivity. Qed.

Lemma run_failure_partial_witness :
  (∃ xs, scenario_matrix = Nd1 xs ∧ AttributeError = IndexError
         ∧ two_objects_scored = two_objects)
  ∨ ∃ n_rows freq_cols pre r post,
      freq_table scenario_matrix [0; 1] false = Ok (n_rows, freq_cols)
      ∧ shared_refs = pre ++ r :: post
      ∧ score n_rows freq_cols [0; 1] (two_objects r) = Raise AttributeError
      ∧ (∀ x, x ∈ pre →
           annotated (score n_rows freq_cols [0; 1])
             (two_objects x) (two_objects_scored x))
      ∧ (∀ x, x ∉ pre → two_objects_scored x = two_objects x).
Proof.
  apply (run_failure_partial scenario_matrix [0; 1] false shared_refs
           two_objects two_objects_scored AttributeError).
  exact shared_refs_run.
Defined.

(** ** When the scoring of a member succeeds *)




Lemma np_index_Raise n i :
  ¬ (- Z.of_nat n ≤ i < Z.of_nat n) → np_index n i = Raise IndexError.
Proof.
  intros Hr. unfold np_index.
  rewrite !bool_decide_eq_false_2 by lia. done.
Qed.







(** ** Frequencies as shares of one total *)

Lemma occ_pos v col : v ∈ col → (0 < occ v col)%nat.
Proof.
  intros Hv. unfold occ.
  assert (v ∈ filter (λ x, x = v) col) as Hin by (by apply list_elem_of_filter).
  destruct (filter _ col); [by apply elem_of_nil in Hin | simpl; lia].
Qed.

Lemma occ_zero v col : v ∉ col → occ v col = 0%nat.
Proof.
  intros Hv. unfold occ. induction col as [| x col IH]; [done |].
  apply not_elem_of_cons in Hv as [Hne Hv]. rewrite filter_cons.
  destruct (decide (x = v)); [congruence | auto].
Qed.

(** X19.  Without [missing_correction], over any alphabet, the frequencies a
    column gets are the counts of the listed labels in the column, each
    divided by the total of these same counts, as soon as some row of the
    column holds a label of the alphabet: the numerators add up to the
    common divisor, a label listed twice counting twice.  When no row holds
    a label of the alphabet, nothing is divided and the frequencies are all
    0. *)
Theorem freq_row_shares_of_total (n_rows : nat) (labels col : list Z) :
  let counts := map (λ v, occ v col) labels in
  ((∃ v, v ∈ labels ∧ v ∈ col) →
     sum_list counts ≠ 0%nat
     ∧ freq_row n_rows labels false col
       = map (λ c, Qc_of_nat c / Qc_of_nat (sum_list counts))%Qc counts)
  ∧ ((∀ v, v ∈ labels → v ∉ col) →
     sum_list counts = 0%nat
     ∧ Forall (λ f, f = 0%Qc) (freq_row n_rows labels false col)).
Proof.
  intros counts. unfold freq_row. rewrite count_labels_np_unique. simpl.
  fold counts. split.
  - intros (v & Hl & Hc).
    pose proof (elem_le_sum_list (λ v, occ v col) v labels Hl) as Hle.
    pose proof (occ_pos v col Hc) as Hpos. simpl in Hle. fold counts in Hle.
    split; [lia |]. by rewrite bool_decide_eq_true_2 by lia.
  - intros Hnone.
    assert (Hz : Forall (λ c, c = 0%nat) counts).
    { apply Forall_forall. intros c (v & -> & Hv)%list_elem_of_fmap.
      by apply occ_zero, Hnone. }
    assert (Hs : sum_list counts = 0%nat).
    { clear -Hz. induction Hz as [| c l -> _ IH]; simpl; [done | by rewrite IH]. }
    split; [exact Hs |]. rewrite Hs.
    rewrite bool_decide_eq_false_2 by (intros Hn; by apply Hn).
    change (map Qc_of_nat ?l) with (Qc_of_nat <$> l).
    apply Forall_fmap. eapply Forall_impl; [exact Hz |].
    intros c ->. simpl. apply Qc_of_nat_0.
Qed.

(** ** Column indices *)

Lemma freq_at_wrap freq_cols col k :
  freq_at freq_cols col k = freq_at freq_cols (wrap_index (length freq_cols) col) k.
Proof.
  unfold wrap_index. case_bool_decide as Hr; [| done].
  unfold freq_at, np_index.
  rewrite (bool_decide_eq_false_2 (0 ≤ col < _)) by lia.
  rewrite (bool_decide_eq_true_2 (- _ ≤ col < 0)) by lia.
  rewrite (bool_decide_eq_true_2 (0 ≤ col + _ < _)) by lia. done.
Qed.

Lemma joint_prob_wrap freq_cols labels bic cs j p :
  joint_prob freq_cols labels bic cs j p
  = joint_prob freq_cols labels bic (wrap_index (length freq_cols) <$> cs) j p.
Proof.
  revert j p. induction cs as [| col cs IH]; intros j p; [done |].
  rewrite fmap_cons. cbn [joint_prob].
  destruct (get_data bic) as [a |]; [| done]. simpl.
  destruct (item_0 a j) as [x |]; [| done]. simpl.
  destruct (labels_index labels x) as [k |]; [| done]. simpl.
  rewrite <- freq_at_wrap. destruct (freq_at freq_cols col k); [| done]. simpl.
  apply IH.
Qed.

(** X20.  A column index is read the numpy way: an index from [-n_cols] to
    [-1] addresses the column that many places from the end, so a bicluster
    gets the same joint probability as with these indices counted from the
    front; an index outside [-n_cols .. n_cols - 1] raises [IndexError]. *)
Theorem column_index_wraps (freq_cols : list (list Qc)) (labels : list Z)
    (bic : Bicluster) (col : Z) (k : nat) :
  let n := length freq_cols in
  (- Z.of_nat n ≤ col < 0 →
     freq_at freq_cols col k = freq_at freq_cols (col + Z.of_nat n) k)
  ∧ (col < - Z.of_nat n ∨ Z.of_nat n ≤ col →
     freq_at freq_cols col k = Raise IndexError)
  ∧ joint_prob freq_cols labels bic (cols bic) 0 1%Qc
    = joint_prob freq_cols labels bic (wrap_index n <$> cols bic) 0 1%Qc.
Proof.
  intros n. split; [| split].
  - intros Hr. rewrite freq_at_wrap. unfold wrap_index. fold n.
    by rewrite bool_decide_eq_true_2.
  - intros Hr. unfold freq_at. fold n. rewrite np_index_Raise by lia. done.
  - apply joint_prob_wrap.
Qed.

(** ** Extreme p-values *)

(** X21.  A member with at least as many rows as the matrix gets the
    p-value 0 whatever its columns show, and a member without columns but
    with fewer rows than the matrix gets 1. *)
Theorem score_edge_pvalues (n_rows : nat) (freq_cols : list (list Qc))
    (labels : list Z) (bic : Bicluster) (q : Qc) :
  score n_rows freq_cols labels bic = Ok q →
  ((n_rows ≤ length (rows bic))%nat → q = 0%Qc)
  ∧ (cols bic = [] → (length (rows bic) < n_rows)%nat → q = 1%Qc).
Proof.
  intros Hq. split.
  - intros Hle. apply score_Ok_sf in Hq as (p & _ & -> & _).
    by apply binom_sf_ge_n.
  - intros Hc Hlt. rewrite (score_no_columns _ _ _ _ Hc) in Hq.
    injection Hq as <-. by apply binom_sf_p1.
Qed.

Lemma score_edge_pvalues_witness :
  ((4 ≤ length (rows bic_no_cols))%nat → binom_sf 1 4 1%Qc = 0%Qc)
  ∧ (cols bic_no_cols = [] → (length (rows bic_no_cols) < 4)%nat →
     binom_sf 1 4 1%Qc = 1%Qc).
Proof.
  apply (score_edge_pvalues 4 [] [0; 1] bic_no_cols (binom_sf 1 4 1%Qc)).
  reflexivity.
Defined.

Lemma joint_prob_from_zero freq_cols labels bic cs j q :
  joint_prob freq_cols labels bic cs j 0%Qc = Ok q → q = 0%Qc.
Proof.
  revert j. induction cs as [| col cs IH]; intros j; simpl.
  - by intros [= <-].
  - destruct (get_data bic) as [a |]; [| done]. simpl.
    destruct (item_0 a j) as [x |]; [| done]. simpl.
    destruct (labels_index labels x) as [k |]; [| done]. simpl.
    destruct (freq_at freq_cols col k) as [f |]; [| done]. simpl.
    rewrite Qcmult_0_l. apply IH.
Qed.

Lemma joint_prob_zero_factor freq_cols labels bic a cs j p q i col x k :
  joint_prob freq_cols labels bic cs j p = Ok q →
  data bic = Some a → cs !! i = Some col →
  item_0 a (j + i) = Ok x → labels_index labels x = Ok k →
  freq_at freq_cols col k = Ok 0%Qc →
  q = 0%Qc.
Proof.
  intros Hq Hd. revert j p i Hq.
  induction cs as [| c cs IH]; intros j p i Hq Hc Hx Hk Hf;
    [by rewrite lookup_nil in Hc |].
  simpl in Hq. unfold get_data in Hq. rewrite Hd in Hq. simpl in Hq.
  destruct i as [| i]; simpl in Hc.
  - injection Hc as ->. rewrite Nat.add_0_r in Hx. rewrite Hx in Hq.
    simpl in Hq. rewrite Hk in Hq. simpl in Hq. rewrite Hf in Hq. simpl in Hq.
    rewrite Qcmult_0_r in Hq. by eapply joint_prob_from_zero.
  - destruct (item_0 a j) as [x0 |]; [| done]. simpl in Hq.
    destruct (labels_index labels x0) as [k0 |]; [| done]. simpl in Hq.
    destruct (freq_at freq_cols c k0) as [f0 |]; [| done]. simpl in Hq.
    eapply (IH (S j) _ i Hq Hc); [| done | done].
    by replace (S j + i)%nat with (j + S i)%nat by lia.
Qed.

(** X22.  When the label a member's data shows for one of its columns has
    frequency 0 in that column of the matrix, the member's p-value is 0,
    whatever its other columns hold. *)
Theorem zero_frequency_pvalue (n_rows : nat) (freq_cols : list (list Qc))
    (labels : list Z) (bic : Bicluster) (q : Qc)
    (a : ndarray) (j : nat) (col x : Z) (k : nat) :
  score n_rows freq_cols labels bic = Ok q →
  data bic = Some a → cols bic !! j = Some col →
  item_0 a j = Ok x → labels_index labels x = Ok k →
  freq_at freq_cols col k = Ok 0%Qc →
  q = 0%Qc.
Proof.
  intros Hq Hd Hc Hx Hk Hf. unfold score in Hq.
  destruct (joint_prob _ _ _ _ _ _) as [p |] eqn:Hp; [| done].
  simpl in Hq. injection Hq as <-.
  rewrite (joint_prob_zero_factor _ _ _ _ _ _ _ _ _ _ _ _ Hp Hd Hc Hx Hk Hf).
  apply binom_sf_p0.
Qed.

Lemma ones_table_zero : freq_at ones_table 0 0 = Ok 0%Qc.
Proof. unfold freq_at. simpl. f_equal. Qc_closed. Qed.

Lemma ones_table_score :
  ∃ q, score 2 ones_table [0; 1] bic_absent_label = Ok q.
Proof.
  destruct (score 2 ones_table [0; 1] bic_absent_label) as [q | e] eqn:Hs;
    [by exists q |].
  vm_compute in Hs. discriminate Hs.
Qed.

Lemma zero_frequency_pvalue_witness :
  freq_table ones_matrix [0; 1] false = Ok (2%nat, ones_table)
  ∧ ∃ q, score 2 ones_table [0; 1] bic_absent_label = Ok q ∧ q = 0%Qc.
Proof.
  split; [reflexivity |]. destruct ones_table_score as [q Hq].
  exists q. split; [exact Hq |].
  apply (zero_frequency_pvalue 2 ones_table [0; 1] bic_absent_label q
           (Nd2 1 [[0]]) 0 0 0 0);
    [exact Hq | reflexivity | reflexivity | reflexivity
    | reflexivity | exact ones_table_zero].
Defined.

(** ** Intersection and union as lattice operations *)

(** X23.  Up to [__eq__], intersection and union are idempotent and
    associative, and each absorbs the other: intersecting a bicluster with
    its union with another one, or uniting it with its intersection with
    another one, gives the bicluster back. *)
Theorem intersection_union_lattice (a b c : Bicluster) :
  ∃ aa ab bc ab_c a_bc uaa uab ubc uab_c ua_buc a_uab ua_ab,
    intersection a a = Ok aa ∧ Bicluster_eq aa a = true
    ∧ union a a = Ok uaa ∧ Bicluster_eq uaa a = true
    ∧ intersection a b = Ok ab ∧ intersection b c = Ok bc
    ∧ intersection ab c = Ok ab_c ∧ intersection a bc = Ok a_bc
    ∧ Bicluster_eq ab_c a_bc = true
    ∧ union a b = Ok uab ∧ union b c = Ok ubc
    ∧ union uab c = Ok uab_c ∧ union a ubc = Ok ua_buc
    ∧ Bicluster_eq uab_c ua_buc = true
    ∧ intersection a uab = Ok a_uab ∧ Bicluster_eq a_uab a = true
    ∧ union a ab = Ok ua_ab ∧ Bicluster_eq ua_ab a = true.
Proof.
  do 12 eexists.
  repeat split;
    first [ apply intersection_Ok | apply union_Ok
          | apply Bicluster_eq_same_indices; intros x; simpl;
            rewrite ?elem_of_intersect1d, ?elem_of_union1d,
              ?elem_of_intersect1d, ?elem_of_union1d; tauto ].
Qed.
